(** * qa-agency: the UDP QA agent's refinement engine

    A shallow embedding of [udp_qa_agent.py], [agent_utils.py] (with
    the packaged copy [src/udp_qa_agent/utils.py]) and the prompt
    builder of [agent_prompts.py] that phase 3 cannot get past, followed
    by the properties of the specification that can be stated over it.

    Definitions:
    - [PyStr]       the Python [str] operations the agent relies on;
    - [Classifier]  the pass/fail check of phase 3;
    - [Fences]      the code-fence clean-up applied to backend replies;
    - [Catalog]     the service parser and port filter of phase 2;
    - [CatalogSpec] the record blocks of a catalog text, as specified;
    - [Runner]      [run_script_and_get_output];
    - [Supervisor]  [stop_background_process] over a small process model;
    - [Refine]      the loops of [phase_3_iterative_testing];
    - [Scenarios]   concrete surroundings used in the examples.

    Text is modelled as a list of characters with code points below 256
    (Stdlib's [ascii]); the line-break and white-space tables below are
    Python's, restricted to that range.  External calls (processes, the
    backend, the file system) are modelled by their outcomes, over which
    the properties quantify. *)

From Stdlib Require Import String Ascii DecimalString.
From Stdlib Require Import ZArith Lia Bool Arith List.
Import ListNotations.
Open Scope string_scope.
Open Scope list_scope.
Open Scope nat_scope.

(* ================================================================== *)
(** ** Python strings *)

Module PyStr.

Definition str := list ascii.

(** String literals are read as character lists. *)
Coercion list_ascii_of_string : string >-> list.

Definition code (c : ascii) : nat := nat_of_ascii c.

(** [s.startswith(p)] *)
Fixpoint startswith (p s : str) : bool :=
  match p, s with
  | [], _ => true
  | _ :: _, [] => false
  | a :: p', b :: s' => Ascii.eqb a b && startswith p' s'
  end.

(** [s.endswith(p)] *)
Definition endswith (p s : str) : bool := startswith (rev p) (rev s).

(** [needle in hay] *)
Fixpoint contains (needle hay : str) : bool :=
  startswith needle hay ||
  match hay with
  | [] => false
  | _ :: t => contains needle t
  end.

(** [c.isspace()] for code points below 256. *)
Definition isspace (c : ascii) : bool :=
  let n := code c in
  ((9 <=? n) && (n <=? 13)) || ((28 <=? n) && (n <=? 32))
  || (n =? 133) || (n =? 160).

Fixpoint lstrip (s : str) : str :=
  match s with
  | [] => []
  | c :: t => if isspace c then lstrip t else s
  end.

Definition rstrip (s : str) : str := rev (lstrip (rev s)).

(** [s.strip()] *)
Definition strip (s : str) : str := rstrip (lstrip s).

(** [s[n:]] and [s[:-n]] for [0 < n]. *)
Definition drop_front (n : nat) (s : str) : str := skipn n s.
Definition drop_back (n : nat) (s : str) : str := firstn (length s - n) s.

(** The first occurrence of [sep]: the text before it and the text
    after it. *)
Fixpoint partition (sep s : str) : option (str * str) :=
  if startswith sep s then Some ([], skipn (length sep) s)
  else match s with
       | [] => None
       | c :: t =>
           match partition sep t with
           | Some (a, b) => Some (c :: a, b)
           | None => None
           end
       end.

(** [s.split(sep, 1)] for a non-empty [sep]. *)
Definition split1 (sep s : str) : list str :=
  match partition sep s with
  | Some (a, b) => [a; b]
  | None => [s]
  end.

(** Line boundaries of [splitlines()] below code point 256:
    LF, VT, FF, CR, FS, GS, RS, NEL; CR LF counts once. *)
Definition is_linebreak (c : ascii) : bool :=
  let n := code c in
  ((10 <=? n) && (n <=? 13)) || ((28 <=? n) && (n <=? 30)) || (n =? 133).

Fixpoint splitlines_from (cur : str) (s : str) : list str :=
  match s with
  | [] => match cur with [] => [] | _ => [rev cur] end
  | c :: t =>
      if is_linebreak c then
        match t with
        | d :: t' =>
            if (code c =? 13) && (code d =? 10)
            then rev cur :: splitlines_from [] t'
            else rev cur :: splitlines_from [] t
        | [] => [rev cur]
        end
      else splitlines_from (c :: cur) t
  end.

(** [s.splitlines()] *)
Definition splitlines (s : str) : list str := splitlines_from [] s.

(** [str(n)] for an integer. *)
Definition str_of_Z (z : Z) : str :=
  list_ascii_of_string (NilZero.string_of_int (Z.to_int z)).

(** Decimal digits of [int(s)]: digits, single underscores allowed
    between two digits. *)
Definition digit_val (c : ascii) : option Z :=
  let n := code c in
  if (48 <=? n) && (n <=? 57) then Some (Z.of_nat (n - 48)) else None.

Definition is_underscore (c : ascii) : bool := code c =? 95.

Fixpoint int_digits (acc : Z) (s : str) : option Z :=
  match s with
  | [] => Some acc
  | c :: t =>
      if is_underscore c then
        match t with
        | d :: t' =>
            match digit_val d with
            | Some v => int_digits (10 * acc + v)%Z t'
            | None => None
            end
        | [] => None
        end
      else
        match digit_val c with
        | Some v => int_digits (10 * acc + v)%Z t
        | None => None
        end
  end.

Definition int_unsigned (s : str) : option Z :=
  match s with
  | [] => None
  | c :: t =>
      match digit_val c with
      | Some v => int_digits v t
      | None => None
      end
  end.

(** [int(s)]: [None] stands for [ValueError].  (The interpreter's
    optional cap on the number of digits is not modelled.) *)
Definition int_of_str (s : str) : option Z :=
  match strip s with
  | c :: t =>
      if code c =? 45 then option_map Z.opp (int_unsigned t)
      else if code c =? 43 then int_unsigned t
      else int_unsigned (c :: t)
  | [] => None
  end.

End PyStr.
Import PyStr.

(** [n] occurs in [h] as a contiguous block. *)
Definition occurs_in (n h : str) : Prop :=
  exists pre post, h = pre ++ n ++ post.

(* ================================================================== *)
(** ** Outcome check of phase 3 ([udp_qa_agent.py], lines 260-264) *)

Module Classifier.

(** The value of [passed] after the [if]/[elif] on the run's return
    code and stderr. *)
Definition check_passed (return_code : Z) (test_stderr : str) : bool :=
  let passed := false in
  if (return_code =? 0)%Z
     && (contains "OK" test_stderr
         && negb (contains "FAIL" test_stderr)
         && negb (contains "ERROR" test_stderr))
  then true
  else if contains "FAIL" test_stderr || contains "ERROR" test_stderr
       then false
       else passed.

Inductive Verdict := Pass | Fail.

Definition classify (return_code : Z) (test_stderr : str) : Verdict :=
  if check_passed return_code test_stderr then Pass else Fail.

End Classifier.

(* ================================================================== *)
(** ** Exceptions and results *)

Inductive exn :=
| IndexError
| TypeError
| UnboundLocalError (variable : string)
| FileNotFoundError
| TimeoutExpired
| OtherError (message : str).

(** A Python computation either returns or raises. *)
Inductive py (A : Type) :=
| Ret (a : A)
| Raise (e : exn).
Arguments Ret {A} a.
Arguments Raise {A} e.

Definition py_bind {A B} (m : py A) (k : A -> py B) : py B :=
  match m with
  | Ret a => k a
  | Raise e => Raise e
  end.

Declare Scope py_scope.
Delimit Scope py_scope with py.
Notation "x <- m ;; k" := (py_bind m (fun x => k))
  (at level 61, m at next level, right associativity) : py_scope.
Open Scope py_scope.

(** [str(e)] *)
Definition exn_message (e : exn) : str :=
  match e with
  | IndexError => "list index out of range"
  | TypeError => "object of type 'NoneType' has no len()"
  | UnboundLocalError v =>
      "cannot access local variable '" ++ (v : str)
      ++ "' where it is not associated with a value"
  | FileNotFoundError => "No such file or directory"
  | TimeoutExpired => "Command timed out"
  | OtherError message => message
  end.

(** [l[i]] *)
Definition item (l : list str) (i : nat) : py str :=
  match nth_error l i with
  | Some x => Ret x
  | None => Raise IndexError
  end.

(* ================================================================== *)
(** ** Code-fence clean-up ([call_ollama_llm], [_clean_code_block]) *)

Module Fences.

Definition fence : str := "```".
Definition python_fence : str := "```python".

Definition clean_code_block (text : str) : str :=
  let text :=
    if startswith python_fence text
    then strip (drop_front (length python_fence) text)
    else if startswith fence text
         then strip (drop_front (length fence) text)
         else text in
  if endswith fence text
  then strip (drop_back (length fence) text)
  else text.

(** The text [call_ollama_llm] hands back for a decoded response. *)
Definition generated_text (response : str) : str :=
  clean_code_block (strip response).

End Fences.

(* ================================================================== *)
(** ** Service catalog ([phase_2_mock_and_test_generation]) *)

Module Catalog.

(** The per-service dict.  A field is [None] while its key is absent;
    the value under ["port"] is itself [None] after a failed parse. *)
Record service := {
  name : option str;
  port : option (option Z);
  functionality : option str
}.

Definition empty_dict : service :=
  {| name := None; port := None; functionality := None |}.

(** Truth value of the dict: it has at least one key. *)
Definition truthy (d : service) : bool :=
  match name d, port d, functionality d with
  | None, None, None => false
  | _, _, _ => true
  end.

Definition set_port (v : option Z) (d : service) : service :=
  {| name := name d; port := Some v; functionality := functionality d |}.

Definition set_functionality (v : str) (d : service) : service :=
  {| name := name d; port := port d; functionality := Some v |}.

Definition new_service (v : str) : service :=
  {| name := Some v; port := None; functionality := None |}.

(** [line.split(":", 1)[1].strip()] *)
Definition field_value (line : str) : py str :=
  v <- item (split1 ":" line) 1 ;; Ret (strip v).

Definition parser_state := (list service * service)%type.

(** One turn of the loop over the lines (lines 126-136). *)
Definition parse_line (st : parser_state) (line : str) : py parser_state :=
  let '(services_to_test, current_service) := st in
  if startswith "Service Name:" line then
    let services_to_test :=
      if truthy current_service
      then services_to_test ++ [current_service]
      else services_to_test in
    v <- field_value line ;;
    Ret (services_to_test, new_service v)
  else if startswith "Port:" line && truthy current_service then
    v <- field_value line ;;
    match int_of_str v with
    | Some n => Ret (services_to_test, set_port (Some n) current_service)
    | None => Ret (services_to_test, set_port None current_service)
    end
  else if startswith "Functionality Summary:" line
          && truthy current_service then
    v <- field_value line ;;
    Ret (services_to_test, set_functionality v current_service)
  else Ret st.

Fixpoint parse_lines_from (st : parser_state) (lines : list str)
  : py parser_state :=
  match lines with
  | [] => Ret st
  | line :: rest => st' <- parse_line st line ;; parse_lines_from st' rest
  end.

(** The check on the last buffered record (line 137). *)
Definition last_is_kept (current_service : service) : bool :=
  truthy current_service &&
  match port current_service with
  | Some (Some _) => true
  | _ => false
  end.

Definition finish (st : parser_state) : list service :=
  let '(services_to_test, current_service) := st in
  if last_is_kept current_service
  then services_to_test ++ [current_service]
  else services_to_test.

(** [services_to_test] after line 138, from the lines of the text. *)
Definition parse_lines (lines : list str) : py (list service) :=
  st <- parse_lines_from ([], empty_dict) lines ;; Ret (finish st).

Definition parse_services (identified_services_text : str)
  : py (list service) :=
  parse_lines (splitlines identified_services_text).

(** [service_info.get("port")] *)
Definition get_port (s : service) : option Z :=
  match port s with
  | Some v => v
  | None => None
  end.

(** [not port] is false: the service is not skipped at line 152. *)
Definition port_ok (p : option Z) : bool :=
  match p with
  | Some z => negb (z =? 0)%Z
  | None => false
  end.

(** The services for which mock and test generation is attempted. *)
Definition services_for_generation (services_to_test : list service)
  : list service :=
  filter (fun s => port_ok (get_port s)) services_to_test.

Definition usable_catalog (identified_services_text : str)
  : py (list service) :=
  services <- parse_services identified_services_text ;;
  Ret (services_for_generation services).

End Catalog.

(** The record blocks of a catalog text, as the specification describes
    them: a block is a name line and the lines that follow it up to the
    next name line; its descriptor takes the name from the name line and
    the last port and functionality fields of the block. *)
Module CatalogSpec.
Import Catalog.

Definition is_name_line (line : str) : bool :=
  startswith "Service Name:" line.

Fixpoint block_body (lines : list str) : list str :=
  match lines with
  | [] => []
  | l :: t => if is_name_line l then [] else l :: block_body t
  end.

Fixpoint record_blocks (lines : list str) : list (str * list str) :=
  match lines with
  | [] => []
  | l :: t =>
      if is_name_line l
      then (l, block_body t) :: record_blocks t
      else record_blocks t
  end.

Definition apply_field (d : service) (line : str) : service :=
  if startswith "Port:" line
  then set_port (int_of_str (strip (skipn 5 line))) d
  else if startswith "Functionality Summary:" line
       then set_functionality (strip (skipn 22 line)) d
       else d.

Definition descriptor_of_block (b : str * list str) : service :=
  fold_left apply_field (snd b) (new_service (strip (skipn 13 (fst b)))).

(** A descriptor is valid when its port parsed as an integer other
    than zero. *)
Definition valid (d : service) : bool :=
  match port d with
  | Some (Some z) => negb (z =? 0)%Z
  | _ => false
  end.

(** The buffered record joined to those already listed. *)
Definition flush (st : parser_state) : list service :=
  let '(svcs, cur) := st in if truthy cur then svcs ++ [cur] else svcs.

End CatalogSpec.

(* ================================================================== *)
(** ** Test runner ([run_script_and_get_output], agent_utils.py) *)

Module Runner.

(** What [subprocess.run] hands back on completion. *)
Record CompletedProcess := {
  stdout : str;
  stderr : str;
  returncode : Z
}.

(** The function's result: [(stdout, stderr, return_code)]. *)
Definition output := (str * str * Z)%type.

(** The stderr text reported for a run that exceeded its timeout. *)
Definition timeout_message (timeout : Z) : str :=
  "Script execution timed out after " ++ str_of_Z timeout ++ " seconds.".

(** [run] is what the call to [subprocess.run] did: it returned a
    completed process or raised.  Only [Exception] subclasses are
    considered. *)
Definition run_script_and_get_output
    (script_path : str) (timeout : Z) (run : py CompletedProcess)
  : py output :=
  match run with
  | Ret result => Ret (stdout result, stderr result, returncode result)
  | Raise FileNotFoundError =>
      Ret ([], "Python interpreter or script " ++ script_path
               ++ " not found.", 1%Z)
  | Raise TimeoutExpired =>
      Ret ([], timeout_message timeout, 1%Z)
  | Raise e => Ret ([], exn_message e, 1%Z)
  end.

End Runner.

(* ================================================================== *)
(** ** Process supervisor ([stop_background_process]) *)

Module Supervisor.

(** A child process as its parent observes it.  [Alive ttl]: still
    running, and exiting on its own after [ttl] seconds ([None]: never). *)
Inductive status :=
| Exited
| Alive (ttl : option nat).

(** What [terminate()] and [kill()] send. *)
Inductive signal :=
| SIGTERM
| SIGKILL.

(** [on_terminate]: seconds the program takes to exit once it receives
    the terminate signal, [None] when it traps or ignores the signal.
    [on_kill]: seconds the system takes to end it after a kill, which
    no program can trap.  [received]: the signals sent to it so far,
    oldest first. *)
Record process := {
  state : status;
  on_terminate : option nat;
  on_kill : nat;
  received : list signal
}.

Definition with_state (p : process) (s : status) : process :=
  {| state := s; on_terminate := on_terminate p; on_kill := on_kill p;
     received := received p |}.

Definition sooner (a b : option nat) : option nat :=
  match a, b with
  | Some x, Some y => Some (Nat.min x y)
  | Some x, None => Some x
  | None, b => b
  end.

(** [process.poll() is None] *)
Definition poll_is_none (p : process) : bool :=
  match state p with
  | Exited => false
  | Alive (Some 0) => false
  | Alive _ => true
  end.

(** The process after [poll()] has looked at it. *)
Definition polled (p : process) : process :=
  match state p with
  | Alive (Some 0) => with_state p Exited
  | _ => p
  end.

(** Seconds the process takes to exit once it has received [sig]. *)
Definition reaction (sig : signal) (p : process) : option nat :=
  match sig with
  | SIGTERM => on_terminate p
  | SIGKILL => Some (on_kill p)
  end.

(** [process.send_signal(sig)]: nothing is sent to a process known to
    have exited. *)
Definition send_signal (sig : signal) (p : process) : process :=
  match state p with
  | Exited => p
  | Alive ttl =>
      {| state := Alive (sooner ttl (reaction sig p));
         on_terminate := on_terminate p; on_kill := on_kill p;
         received := received p ++ [sig] |}
  end.

(** [process.terminate()] *)
Definition terminate (p : process) : process := send_signal SIGTERM p.

(** [process.kill()] *)
Definition kill (p : process) : process := send_signal SIGKILL p.

(** [process.wait(timeout=t)]: the process, the seconds spent, and
    whether [TimeoutExpired] was raised. *)
Definition wait_timeout (t : nat) (p : process) : process * nat * bool :=
  match state p with
  | Exited => (p, 0, false)
  | Alive (Some d) =>
      if d <=? t then (with_state p Exited, d, false)
      else (with_state p (Alive (Some (d - t))), t, true)
  | Alive None => (p, t, true)
  end.

(** [process.wait()], which has no timeout: [None] when the call never
    returns. *)
Definition wait (p : process) : option (process * nat) :=
  match state p with
  | Exited => Some (p, 0)
  | Alive (Some d) => Some (with_state p Exited, d)
  | Alive None => None
  end.

(** [stop_background_process(process)] for a handle that is not [None]:
    the process afterwards and the seconds spent waiting, or [None] when
    the call does not return. *)
Definition stop_background_process (p : process) : option (process * nat) :=
  if poll_is_none p then
    let p := terminate (polled p) in
    let '(p, waited, timed_out) := wait_timeout 5 p in
    if timed_out then
      let p := kill p in
      match wait p with
      | Some (p, more) => Some (p, waited + more)
      | None => None
      end
    else Some (p, waited)
  else Some (polled p, 0).

Definition running (p : process) : bool :=
  match state p with
  | Exited => false
  | Alive _ => true
  end.

(** The process once it has exited, [sigs] having been sent to it. *)
Definition gone (p : process) (sigs : list signal) : process :=
  {| state := Exited; on_terminate := on_terminate p; on_kill := on_kill p;
     received := received p ++ sigs |}.

(** A process that is running, traps the terminate signal and never
    exits on its own. *)
Definition stubborn (kill_latency : nat) (sent : list signal) : process :=
  {| state := Alive None; on_terminate := None; on_kill := kill_latency;
     received := sent |}.

End Supervisor.

(* ================================================================== *)
(** ** Iterative testing ([phase_3_iterative_testing]) *)

Module Refine.
Import Classifier.

(** What [call_ollama_llm] did: it returned a text or [None], or let an
    exception through that it does not catch. *)
Inductive llm_reply :=
| Reply (text : option str)
| Fault (e : exn).

(** The surroundings of one attempt: whether the mock started, what the
    test run gave, and what the backend would answer. *)
Record attempt_env := {
  start_ok : bool;
  run_output : Runner.output;
  edge_reply : llm_reply;
  fix_reply : llm_reply
}.

(** The surroundings of one asset: the artifacts as read from disk and
    the surroundings of its attempts, by attempt number. *)
Record asset_env := {
  mock_content : option str;
  test_content : option str;
  attempt_env_at : nat -> attempt_env
}.

(** Calls and marks of one attempt, in program order. *)
Inductive event :=
| Started (handle : bool)
| Ran
| Classified (passed : bool)
| AskedEdgeCases
| AskedFix
| SavedMock (code : str)
| SavedTest (code : str)
| Stopped.

(** How the retry loop of an asset was left. *)
Inductive loop_exit :=
| StartFailed      (* break, line 236 *)
| TestsPassed      (* break, line 291 *)
| NoFix            (* break, line 305 *)
| NoMarkers        (* break, line 338 *)
| Unexpected       (* break, line 348 *)
| RangeDone.       (* the range ran out *)

Inductive terminal := Passed | Exhausted | Aborted.

Definition terminal_of (r : loop_exit) : terminal :=
  match r with
  | TestsPassed => Passed
  | RangeDone => Exhausted
  | StartFailed | NoFix | NoMarkers | Unexpected => Aborted
  end.

(** The locals of the function that outlive one statement. *)
Record st := {
  all_tests_passed_overall : bool;
  passed : option bool;          (* [None]: not bound yet *)
  current_mock_code : option str;
  current_test_code : option str;
  mock_process : bool            (* a handle, or [None] *)
}.

Definition set_overall (b : bool) (s : st) : st :=
  {| all_tests_passed_overall := b; passed := passed s;
     current_mock_code := current_mock_code s;
     current_test_code := current_test_code s;
     mock_process := mock_process s |}.

Definition set_passed (b : bool) (s : st) : st :=
  {| all_tests_passed_overall := all_tests_passed_overall s;
     passed := Some b;
     current_mock_code := current_mock_code s;
     current_test_code := current_test_code s;
     mock_process := mock_process s |}.

Definition set_mock_code (c : option str) (s : st) : st :=
  {| all_tests_passed_overall := all_tests_passed_overall s;
     passed := passed s;
     current_mock_code := c;
     current_test_code := current_test_code s;
     mock_process := mock_process s |}.

Definition set_test_code (c : option str) (s : st) : st :=
  {| all_tests_passed_overall := all_tests_passed_overall s;
     passed := passed s;
     current_mock_code := current_mock_code s;
     current_test_code := c;
     mock_process := mock_process s |}.

Definition set_mock_process (h : bool) (s : st) : st :=
  {| all_tests_passed_overall := all_tests_passed_overall s;
     passed := passed s;
     current_mock_code := current_mock_code s;
     current_test_code := current_test_code s;
     mock_process := h |}.

(** Control after a statement of the [try] block. *)
Inductive ctl (A : Type) :=
| Normal (a : A)
| Break (r : loop_exit)
| Throw (e : exn).
Arguments Normal {A} a.
Arguments Break {A} r.
Arguments Throw {A} e.

(** Statements: state in, control, state and emitted events out. *)
Definition M (A : Type) := st -> ctl A * st * list event.

Definition ret {A} (a : A) : M A := fun s => (Normal a, s, []).

Definition bind {A B} (m : M A) (k : A -> M B) : M B :=
  fun s =>
    let '(c, s1, ev1) := m s in
    match c with
    | Normal a => let '(c2, s2, ev2) := k a s1 in (c2, s2, ev1 ++ ev2)
    | Break r => (Break r, s1, ev1)
    | Throw e => (Throw e, s1, ev1)
    end.

Declare Scope stmt_scope.
Delimit Scope stmt_scope with stmt.
Notation "x <- m ;; k" := (bind m (fun x => k))
  (at level 61, m at next level, right associativity) : stmt_scope.
Notation "m ;; k" := (bind m (fun _ => k))
  (at level 61, right associativity) : stmt_scope.
Local Open Scope stmt_scope.

Definition gets {A} (f : st -> A) : M A := fun s => (Normal (f s), s, []).
Definition modify (f : st -> st) : M unit := fun s => (Normal tt, f s, []).
Definition emit (e : event) : M unit := fun s => (Normal tt, s, [e]).
Definition break {A} (r : loop_exit) : M A := fun s => (Break r, s, []).
Definition throw {A} (e : exn) : M A := fun s => (Throw e, s, []).

Definition lift {A} (m : py A) : M A :=
  match m with
  | Ret a => ret a
  | Raise e => throw e
  end.

Definition new_mock_code_marker : str := "Updated Mock Code:".
Definition new_test_code_marker : str := "Updated Test Script Code:".

(** [len(x)] in the prompt builders: a [TypeError] on [None]. *)
Definition len_of (x : option str) : M nat :=
  match x with
  | Some v => ret (length v)
  | None => throw TypeError
  end.

(** The two prompt builders take the length of both artifacts. *)
Definition build_prompt : M unit :=
  mock_code <- gets current_mock_code ;;
  test_code <- gets current_test_code ;;
  len_of mock_code ;;
  len_of test_code ;;
  ret tt.

Definition call_ollama_llm (r : llm_reply) (mark : event)
  : M (option str) :=
  emit mark ;;
  match r with
  | Reply text => ret text
  | Fault e => throw e
  end.

(** Truth value of an optional text: neither [None] nor empty. *)
Definition text_of (x : option str) : option str :=
  match x with
  | Some (c :: t) => Some (c :: t)
  | _ => None
  end.

(** Lines 320-326. *)
Definition apply_mock_update (fix_suggestion : str) : M unit :=
  if contains new_mock_code_marker fix_suggestion then
    potential_new_mock <-
      lift (item (split1 new_mock_code_marker fix_suggestion) 1) ;;
    potential_new_mock <-
      (if contains new_test_code_marker potential_new_mock
       then lift (item (split1 new_test_code_marker potential_new_mock) 0)
       else ret potential_new_mock) ;;
    modify (set_mock_code (Some (strip potential_new_mock))) ;;
    emit (SavedMock (strip potential_new_mock))
  else ret tt.

(** Lines 328-334. *)
Definition apply_test_update (fix_suggestion : str) : M unit :=
  if contains new_test_code_marker fix_suggestion then
    potential_new_test <-
      lift (item (split1 new_test_code_marker fix_suggestion) 1) ;;
    potential_new_test <-
      (if contains new_mock_code_marker potential_new_test
       then lift (item (split1 new_mock_code_marker potential_new_test) 0)
       else ret potential_new_test) ;;
    modify (set_test_code (Some (strip potential_new_test))) ;;
    emit (SavedTest (strip potential_new_test))
  else ret tt.

(** [get_udp_edge_case_generation_prompt(port, qa_snippet,
    current_mock_code, current_test_code)] (agent_prompts.py, lines
    188-218): the lengths of the artifacts are taken, then the template
    is formatted.  Its first field is [port_Number], a name bound
    nowhere, so the call ends in a [NameError] whatever it is given. *)
Definition edge_case_prompt : M str :=
  build_prompt ;;
  throw (OtherError "name 'port_Number' is not defined").

(** The tests passed (lines 267-291): build the prompt, ask for edge
    cases, then leave the retry loop. *)
Definition on_pass (e : attempt_env) : M unit :=
  edge_case_prompt ;;
  call_ollama_llm (edge_reply e) AskedEdgeCases ;;
  break TestsPassed.

(** The repair step (lines 297-338): ask for a fix and apply it. *)
Definition repair (e : attempt_env) : M unit :=
  build_prompt ;;
  fix_suggestion <- call_ollama_llm (fix_reply e) AskedFix ;;
  match text_of fix_suggestion with
  | None => break NoFix
  | Some fix_suggestion =>
      apply_mock_update fix_suggestion ;;
      apply_test_update fix_suggestion ;;
      if negb (contains new_mock_code_marker fix_suggestion
               || contains new_test_code_marker fix_suggestion)
      then break NoMarkers
      else ret tt
  end.

(** The tests failed and retries are left (lines 295-338). *)
Definition request_fix (e : attempt_env) : M unit :=
  modify (set_overall false) ;;
  repair e.

Section Budget.

Variable MAX_REFINEMENT_RETRIES : nat.

(** What follows the pass/fail check (lines 267-342). *)
Definition evaluate (e : attempt_env) (attempt : nat) (p : bool) : M unit :=
  (if p then on_pass e else ret tt) ;;
  if negb p && (attempt <? MAX_REFINEMENT_RETRIES) then request_fix e
  else if negb p && (attempt =? MAX_REFINEMENT_RETRIES) then
    modify (set_overall false)
  else ret tt.

(** The [try] block of one attempt (lines 229-342). *)
Definition try_block (e : attempt_env) (attempt : nat) : M unit :=
  emit (Started (start_ok e)) ;;
  modify (set_mock_process (start_ok e)) ;;
  if negb (start_ok e) then
    modify (set_overall false) ;;
    break StartFailed
  else
    emit Ran ;;
    let '(test_stdout, test_stderr, return_code) := run_output e in
    let p := check_passed return_code test_stderr in
    modify (set_passed p) ;;
    emit (Classified p) ;;
    evaluate e attempt p.

(** One turn of the retry loop: [try], [except Exception], [finally].
    The result is the [break] taken, if any. *)
Definition attempt_body (e : attempt_env) (attempt : nat) (s : st)
  : option loop_exit * st * list event :=
  let '(c, s, evs) := try_block e attempt (set_mock_process false s) in
  let '(brk, s) :=
    match c with
    | Normal _ => (None, s)
    | Break r => (Some r, s)
    | Throw _ => (Some Unexpected, set_overall false s)
    end in
  if mock_process s then (brk, s, evs ++ [Stopped]) else (brk, s, evs).

(** [for attempt in attempts: ...] *)
Fixpoint retry_loop (env : nat -> attempt_env) (attempts : list nat)
    (s : st) : loop_exit * st * list event :=
  match attempts with
  | [] => (RangeDone, s, [])
  | attempt :: rest =>
      let '(brk, s, evs) := attempt_body (env attempt) attempt s in
      match brk with
      | Some r => (r, s, evs)
      | None =>
          let '(r, s, evs') := retry_loop env rest s in
          (r, s, evs ++ evs')
      end
  end.

(** [range(MAX_REFINEMENT_RETRIES + 1)] *)
Definition attempt_range : list nat := seq 0 (MAX_REFINEMENT_RETRIES + 1).

(** The retry loop of one asset, from the reading of its artifacts. *)
Definition refine_asset (env : asset_env) (s : st)
  : loop_exit * st * list event :=
  let s := set_test_code (test_content env)
             (set_mock_code (mock_content env) s) in
  retry_loop (attempt_env_at env) attempt_range s.

(** What is known of the assets handled so far: how each loop was left
    and what it did. *)
Definition log := list (loop_exit * list event).

Inductive phase_result :=
| NothingToDo
| Summary (all_passed : bool) (done : log)
| Crashed (e : exn) (done : log).

(** [for asset in generated_assets: ...] with the check of line 353. *)
Fixpoint assets_loop (assets : list asset_env) (s : st) (done : log)
  : phase_result :=
  match assets with
  | [] => Summary (all_tests_passed_overall s) done
  | env :: rest =>
      let '(r, s, evs) := refine_asset env s in
      let done := done ++ [(r, evs)] in
      if negb (all_tests_passed_overall s) then
        match passed s with
        | None => Crashed (UnboundLocalError "passed") done
        | Some _ => assets_loop rest s done
        end
      else assets_loop rest s done
  end.

Definition initial : st :=
  {| all_tests_passed_overall := true; passed := None;
     current_mock_code := None; current_test_code := None;
     mock_process := false |}.

Definition phase_3 (generated_assets : list asset_env) : phase_result :=
  match generated_assets with
  | [] => NothingToDo
  | _ => assets_loop generated_assets initial []
  end.

End Budget.

(** How the retry loop of an asset is left, and what it does, when the
    asset is the only one. *)
Definition alone (budget : nat) (env : asset_env) : loop_exit * list event :=
  let '(r, _, evs) := refine_asset budget env initial in (r, evs).

Definition MAX_REFINEMENT_RETRIES : nat := 3.

Definition phase_3_iterative_testing := phase_3 MAX_REFINEMENT_RETRIES.

(** The value [passed] takes in an attempt that gets to run the tests. *)
Definition verdict_of (e : attempt_env) : bool :=
  let '(_, test_stderr, return_code) := run_output e in
  check_passed return_code test_stderr.

(** Readings of a trace. *)
Definition is_started (e : event) : bool :=
  match e with Started _ => true | _ => false end.
Definition is_ran (e : event) : bool :=
  match e with Ran => true | _ => false end.
Definition is_classified (e : event) : bool :=
  match e with Classified _ => true | _ => false end.
Definition is_saved_test (e : event) : bool :=
  match e with SavedTest _ => true | _ => false end.
Definition is_stopped (e : event) : bool :=
  match e with Stopped => true | _ => false end.
Definition acquired (e : event) : bool :=
  match e with Started true => true | _ => false end.

Definition count (f : event -> bool) (evs : list event) : nat :=
  length (filter f evs).

Definition b2n (b : bool) : nat := if b then 1 else 0.

(** Position of the first event satisfying [f]. *)
Fixpoint position (f : event -> bool) (evs : list event) : option nat :=
  match evs with
  | [] => None
  | e :: t => if f e then Some 0 else option_map S (position f t)
  end.

(** Events of the repair and edge-case steps: no start, run, check or
    stop among them. *)
Definition quiet_event (e : event) : bool :=
  match e with
  | AskedEdgeCases | AskedFix | SavedMock _ | SavedTest _ => true
  | Started _ | Ran | Classified _ | Stopped => false
  end.

Definition quiet (evs : list event) : Prop :=
  Forall (fun e => quiet_event e = true) evs.

(** What the statements after the pass/fail check leave alone: the
    handle, [passed], and a summary flag that is already down. *)
Definition steady (s s' : st) (evs : list event) : Prop :=
  quiet evs
  /\ mock_process s' = mock_process s
  /\ passed s' = passed s
  /\ (all_tests_passed_overall s' = true ->
      all_tests_passed_overall s = true).

(** A statement that is steady and leaves the loop only by a [break]
    in [B]. *)
Definition obeys {A} (B : loop_exit -> Prop) (m : M A) : Prop :=
  forall s c s' evs,
    m s = (c, s', evs) ->
    steady s s' evs /\ (forall r, c = Break r -> B r).

(** What the course of an attempt can depend on: the two artifacts and
    the handle. *)
Definition view (s : st) : option str * option str * bool :=
  (current_mock_code s, current_test_code s, mock_process s).

Definition codes (s : st) : option str * option str :=
  (current_mock_code s, current_test_code s).

(** A statement whose control, events and later view are the same from
    any two states with the same view. *)
Definition blind {A} (m : M A) : Prop :=
  forall s1 s2,
    view s1 = view s2 ->
    fst (fst (m s1)) = fst (fst (m s2))
    /\ snd (m s1) = snd (m s2)
    /\ view (snd (fst (m s1))) = view (snd (fst (m s2))).

(** The breaks of the repair step. *)
Definition repair_break (r : loop_exit) : Prop := r = NoFix \/ r = NoMarkers.

End Refine.

(** ** Scenarios *)

Module Scenarios.
Import Refine.

Definition ok_run : Runner.output := ([], "OK" : str, 0%Z).
Definition failed_run : Runner.output :=
  ([], "FAILED (failures=1)" : str, 1%Z).

Definition an_asset (attempts : nat -> attempt_env) : asset_env :=
  {| mock_content := Some ("import socket" : str);
     test_content := Some ("import unittest" : str);
     attempt_env_at := attempts |}.

(** The mock never starts. *)
Definition start_fails : asset_env :=
  an_asset (fun _ =>
    {| start_ok := false; run_output := ok_run;
       edge_reply := Reply None; fix_reply := Reply None |}).

(** The tests pass on the first run. *)
Definition passes_at_once : asset_env :=
  an_asset (fun _ =>
    {| start_ok := true; run_output := ok_run;
       edge_reply := Reply None; fix_reply := Reply None |}).

(** The first run fails, the backend sends a new mock, the second run
    passes. *)
Definition fails_then_passes : asset_env :=
  an_asset (fun attempt =>
    {| start_ok := true;
       run_output := if attempt =? 0 then failed_run else ok_run;
       edge_reply := Reply None;
       fix_reply := Reply (Some ("Updated Mock Code: x = 1" : str)) |}).

(** The first run fails, then the backend call for a fix lets an
    exception through. *)
Definition backend_faults : asset_env :=
  an_asset (fun _ =>
    {| start_ok := true; run_output := failed_run;
       edge_reply := Reply None;
       fix_reply := Fault (OtherError "'int' object has no attribute 'strip'") |}).

(** Every run fails and every reply of the backend carries a new test. *)
Definition never_passes : asset_env :=
  an_asset (fun _ =>
    {| start_ok := true; run_output := failed_run;
       edge_reply := Reply None;
       fix_reply := Reply (Some ("Updated Test Script Code: pass" : str)) |}).

(** The first run fails and the reply of the backend has no marker. *)
Definition unusable_fix : asset_env :=
  an_asset (fun _ =>
    {| start_ok := true; run_output := failed_run;
       edge_reply := Reply None;
       fix_reply := Reply (Some ("Try turning it off and on" : str)) |}).

(** The locals when the retry loop of the first asset begins. *)
Definition loaded (env : asset_env) : st :=
  set_test_code (test_content env)
    (set_mock_code (mock_content env) initial).

End Scenarios.

(* ================================================================== *)
(** ** More of Python's [str] *)

Module PyText.

(** [c.lower()] for code points below 256: the Latin capitals and the
    capitals of the Latin-1 block (the multiplication sign is none). *)
Definition lower_char (c : ascii) : ascii :=
  let n := code c in
  if ((65 <=? n) && (n <=? 90))
     || ((192 <=? n) && (n <=? 222) && negb (n =? 215))
  then ascii_of_nat (n + 32)
  else c.

(** [s.lower()] *)
Definition lower (s : str) : str := map lower_char s.

(** [s.replace(old, new)] for a non-empty [old]: the occurrences are
    taken from the left and do not overlap.  [skip] counts the
    characters of an occurrence still to be passed over. *)
Fixpoint replace_from (old new : str) (skip : nat) (s : str) : str :=
  match s with
  | [] => []
  | c :: t =>
      match skip with
      | S k => replace_from old new k t
      | 0 =>
          if startswith old s
          then new ++ replace_from old new (length old - 1) t
          else c :: replace_from old new 0 t
      end
  end.

Definition replace (old new s : str) : str := replace_from old new 0 s.

(** [s.split(sep)] for a separator of one character. *)
Fixpoint split_char (sep : ascii) (s : str) : list str :=
  match s with
  | [] => [[]]
  | c :: t =>
      if Ascii.eqb c sep then [] :: split_char sep t
      else match split_char sep t with
           | [] => [[c]]
           | w :: ws => (c :: w) :: ws
           end
  end.

(** [l[-1]] of a list that is not empty. *)
Definition last_item (l : list str) : py str :=
  match rev l with
  | x :: _ => Ret x
  | [] => Raise IndexError
  end.

Definition sep : ascii := "/"%char.

(** [os.path.join(a, b)] on a POSIX system. *)
Definition path_join (a b : str) : str :=
  if startswith [sep] b then b
  else match a with
       | [] => b
       | _ => if endswith [sep] a then a ++ b else a ++ sep :: b
       end.

(** [x in l] for a list of strings. *)
Definition str_eqb (a b : str) : bool :=
  if list_eq_dec ascii_dec a b then true else false.

Definition mem (x : str) (l : list str) : bool := existsb (str_eqb x) l.

End PyText.
Import PyText.

(* ================================================================== *)
(** ** Prompt builders ([agent_prompts.py]) *)

Module Prompts.

(** [x[:max_len] if len(x) > max_len else x]; [len(None)] is a
    [TypeError]. *)
Definition capped (max_len : nat) (x : option str) : py str :=
  match x with
  | Some v => Ret (if max_len <? length v then firstn max_len v else v)
  | None => Raise TypeError
  end.

(** [get_udp_edge_case_generation_prompt]: the three inputs are capped,
    then the template is formatted; its first field is [port_Number],
    a name that is bound nowhere. *)
Definition get_udp_edge_case_generation_prompt
    (port_number : Z) (qa_snippet mock_code test_code : option str)
  : py str :=
  qa_snippet <- capped 2500 qa_snippet ;;
  mock_code <- capped 2500 mock_code ;;
  test_code <- capped 2500 test_code ;;
  Raise (OtherError "name 'port_Number' is not defined").

End Prompts.

(* ================================================================== *)
(** ** File scan ([scan_files]) *)

Module Scan.

(** The extensions taken when none are given ([agent_utils.py]). *)
Definition default_extensions : list str :=
  [ ".py" : str; ".c" : str; ".go" : str; ".md" : str; ".txt" : str;
    ".json" : str; ".yaml" : str; "Dockerfile" : str;
    "docker-compose.yml" : str ].

(** [any(file.endswith(ext) for ext in extensions)] *)
Definition ends_with_any (extensions : list str) (file : str) : bool :=
  existsb (fun ext => endswith ext file) extensions.

(** The test on one file name (lines 58-68 of [agent_utils.py]). *)
Definition selected (extensions : list str) (file : str) : bool :=
  if ends_with_any extensions file
     || match extensions with [] => true | _ => false end
  then
    let is_named_file := mem file extensions in
    let has_matching_extension :=
      existsb (fun ext => endswith ext file)
        (filter (fun ext => startswith "." ext) extensions) in
    is_named_file || has_matching_extension
  else false.

(** One step of [os.walk]: a directory and the files in it. *)
Definition walk_entry := (str * list str)%type.

(** [scan_files(repo_dir, extensions)] over the listing [os.walk]
    gives. *)
Definition scan_files (walk : list walk_entry)
    (extensions : option (list str)) : list str :=
  let extensions :=
    match extensions with
    | None => default_extensions
    | Some l => l
    end in
  flat_map
    (fun entry : walk_entry =>
       let '(root, files) := entry in
       if mem ".git" (split_char sep root) then []
       else map (path_join root) (filter (selected extensions) files))
    walk.

(** The extensions the packaged copy takes when none are given
    ([utils.py], lines 72-75). *)
Definition default_extensions_packaged : list str :=
  [ ".py" : str; ".go" : str; ".c" : str; ".cpp" : str; ".java" : str;
    ".js" : str; ".ts" : str; ".md" : str; ".txt" : str; ".json" : str;
    ".yaml" : str; ".yml" : str; "Dockerfile" : str;
    "docker-compose.yml" : str ].

(** A path met by [rglob]: [str(path)], [path.parts], [path.name] and
    [path.is_file()]. *)
Record path := {
  as_str : str;
  parts : list str;
  name : str;
  is_file : bool
}.

(** Lines 82-88 of [utils.py]: whether the path is appended. *)
Definition selected_packaged (extensions : list str) (p : path) : bool :=
  if mem ".git" (parts p) then false
  else if is_file p then
    ends_with_any extensions (as_str p) || mem (name p) extensions
  else false.

(** [scan_files(repo_dir, extensions)] of the packaged copy over the
    paths [rglob] gives. *)
Definition scan_files_packaged (found : list path)
    (extensions : option (list str)) : list str :=
  let extensions :=
    match extensions with
    | None => default_extensions_packaged
    | Some l => l
    end in
  map as_str (filter (selected_packaged extensions) found).

(** A regular file [name] in the directory [dir] of the repository
    [repo]. *)
Definition regular (repo dir name : str) : path :=
  {| as_str := path_join (path_join repo dir) name;
     parts := [repo; dir; name]; name := name; is_file := true |}.

End Scan.

(* ================================================================== *)
(** ** Repository checkout ([clone_repo]) *)

Module Clone.

(** [git_url.split('/')[-1].replace('.git', '')] *)
Definition repo_name (git_url : str) : py str :=
  tail <- last_item (split_char sep git_url) ;;
  Ret (replace ".git" [] tail).

(** What [git clone] did: its return code, or an exception of
    [subprocess.run]. *)
Definition clone_repo (git_url target_parent_dir : str)
    (git : py Z) : option str :=
  match repo_name git_url with
  | Raise _ => None
  | Ret name =>
      let clone_dir := path_join target_parent_dir name in
      match git with
      | Ret returncode =>
          if (returncode =? 0)%Z then Some clone_dir else None
      | Raise _ => None
      end
  end.

End Clone.

(* ================================================================== *)
(** ** Starting the mock ([start_background_process]) *)

Module Launch.
Import Supervisor.

(** [time.sleep(t)], or any [t] seconds spent elsewhere, as the process
    sees it. *)
Definition elapse (t : nat) (p : process) : process :=
  match state p with
  | Alive (Some d) => with_state p (Alive (Some (d - t)))
  | _ => p
  end.

(** What [subprocess.Popen] gave: the child, and how long from the
    launch the write ends of its two pipes stay open, in the child or in
    a process that inherited them ([None]: for ever). *)
Record child := {
  proc : process;
  pipes_open : option nat
}.

(** [process.communicate()] on a child that has exited, [t] seconds
    after the launch: it reads both pipes to their end, and has no
    timeout.  The seconds spent, or [None] when the call never
    returns. *)
Definition communicate (t : nat) (c : child) : option nat :=
  match pipes_open c with
  | Some d => Some (d - t)
  | None => None
  end.

(** [start_background_process]: [launched] is what [subprocess.Popen]
    did.  The result is [None] when the call does not return; else the
    handle, if any, and the process as it is when the function returns.
    Were [communicate] to raise, the handler would return [None] for the
    handle as well. *)
Definition start_background_process (launched : py child)
  : option (option process * option process) :=
  match launched with
  | Raise _ => Some (None, None)
  | Ret c =>
      let p := elapse 1 (proc c) in
      if poll_is_none p then Some (Some p, Some p)
      else
        match communicate 1 c with
        | Some _ => Some (None, Some (polled p))
        | None => None
        end
  end.

(** A start followed, when it gave a handle, by the stop of the
    [finally] clause [busy] seconds later: [None] when one of the calls
    does not return, else the process left behind, if any was
    launched. *)
Definition start_then_stop (busy : nat) (launched : py child)
  : option (option process) :=
  match start_background_process launched with
  | Some (Some h, _) =>
      match stop_background_process (elapse busy h) with
      | Some (p, _) => Some (Some p)
      | None => None
      end
  | Some (None, remaining) => Some remaining
  | None => None
  end.

(** The child is still running one second after its launch. *)
Definition outlives_start (p : process) : Prop :=
  state p = Alive None \/ exists d, state p = Alive (Some d) /\ 1 < d.

End Launch.

(* ================================================================== *)
(** ** Identified services ([phase_2_mock_and_test_generation]) *)

Module Identify.
Import Catalog.

Definition refusal : str := "no clear services can be identified".

(** Lines 113-142: the reply of the backend ([None] when the call
    failed) up to the list of parsed services. *)
Definition identified_services (identified_services_text : option str)
  : py (list service) :=
  match Refine.text_of identified_services_text with
  | None => Ret []
  | Some text =>
      if contains refusal (lower text) then Ret []
      else parse_services text
  end.

(** [service_info.get("name", ...).replace(" ", "_").lower()] for a
    record that has a name. *)
Definition service_slug (name : str) : str :=
  lower (replace " " "_" name).

End Identify.

(** The list [services_to_test] in terms of the record blocks: the
    descriptors of all blocks, the last one only if its port parsed. *)
Module CatalogShape.
Import Catalog.

Definition has_port (d : service) : bool :=
  match port d with
  | Some (Some _) => true
  | _ => false
  end.

Definition without_unported_last (l : list service) : list service :=
  match rev l with
  | [] => []
  | x :: r => rev r ++ (if has_port x then [x] else [])
  end.

End CatalogShape.

(* ================================================================== *)
(** ** The pass branch with its prompt builder *)

Module PassBranch.
Import Refine.

(** Lines 267-291 of [udp_qa_agent.py] with the prompt builder of
    [agent_prompts.py] in place: build the edge-case prompt, call the
    backend, leave the loop. *)
Definition on_pass_as_written (port : Z) (qa_snippet : str)
    (e : attempt_env) : M unit :=
  bind (gets current_mock_code) (fun mock_code =>
  bind (gets current_test_code) (fun test_code =>
  bind (lift (Prompts.get_udp_edge_case_generation_prompt
                port (Some qa_snippet) mock_code test_code))
    (fun edge_case_prompt =>
  bind (call_ollama_llm (edge_reply e) AskedEdgeCases) (fun _ =>
  break TestsPassed)))).

Definition is_asked_fix (e : event) : bool :=
  match e with AskedFix => true | _ => false end.
Definition is_asked_edge (e : event) : bool :=
  match e with AskedEdgeCases => true | _ => false end.
Definition is_asked (e : event) : bool :=
  is_asked_fix e || is_asked_edge e.

(** A statement that emits at most [n] events satisfying [f]. *)
Definition emits {A} (f : event -> bool) (n : nat) (m : M A) : Prop :=
  forall s, count f (snd (m s)) <= n.

(** The most events satisfying [f] that one attempt can emit after its
    check: one for the edge-case call after a pass, one for the fix
    call after a failure with retries left. *)
Definition per_attempt (f : event -> bool) (budget : nat)
    (e : attempt_env) (attempt : nat) : nat :=
  if start_ok e
  then if verdict_of e then b2n (f AskedEdgeCases)
       else if attempt <? budget then b2n (f AskedFix) else 0
  else 0.

End PassBranch.

(* ================================================================== *)
(** ** Asset generation (lines 145-194 of [udp_qa_agent.py]) *)

Module Generate.
Import Catalog Identify Refine.

(** The dict appended to [generated_assets]. *)
Record asset := {
  service_name : str;
  asset_port : Z;
  asset_functionality : str;
  mock_file : str;
  test_file : str;
  original_qa_snippet : str
}.

(** The surroundings of one service: the two replies of the backend,
    and what the removal of an orphaned mock did. *)
Record gen_env := {
  mock_reply : llm_reply;
  test_reply : llm_reply;
  orphan_removal : py unit
}.

Definition reply (r : llm_reply) : py (option str) :=
  match r with
  | Reply t => Ret (text_of t)
  | Fault e => Raise e
  end.

(** [f"mock_{service_name}_port{port}.py"] and its test twin. *)
Definition file_name (kind service_name : str) (port : Z) : str :=
  kind ++ "_" ++ service_name ++ "_port" ++ str_of_Z port ++ ".py".

(** [service_info.get("name", f"udp_service_{i+1}")...] *)
Definition name_of (i : nat) (service_info : service) : str :=
  service_slug
    match name service_info with
    | Some n => n
    | None => "udp_service_" ++ str_of_Z (Z.of_nat (i + 1))
    end.

Definition functionality_of (service_info : service) : str :=
  match functionality service_info with
  | Some f => f
  | None => "N/A"
  end.

Definition newline : str := [ascii_of_nat 10].

(** One turn of the loop: the asset appended, if any. *)
Definition generate_one (mocks_dir tests_dir qa_ref_content : str)
    (i : nat) (service_info : service) (g : gen_env) : py (option asset) :=
  let service_name := name_of i service_info in
  let functionality := functionality_of service_info in
  match get_port service_info with
  | None => Ret None
  | Some port =>
      if (port =? 0)%Z then Ret None
      else
        let relevant_qa_snippet_for_service :=
          "Service: " ++ service_name ++ ", Port: " ++ str_of_Z port
          ++ ", Functionality: " ++ functionality ++ newline
          ++ "Details from QA Reference:" ++ newline ++ qa_ref_content in
        mock_code <- reply (mock_reply g) ;;
        match mock_code with
        | None => Ret None
        | Some mock_code =>
            let mock_file_path :=
              path_join mocks_dir (file_name "mock" service_name port) in
            test_code <- reply (test_reply g) ;;
            match test_code with
            | None => _ <- orphan_removal g ;; Ret None
            | Some test_code =>
                let test_file_path :=
                  path_join tests_dir (file_name "test" service_name port) in
                Ret (Some
                       {| service_name := service_name;
                          asset_port := port;
                          asset_functionality := functionality;
                          mock_file := mock_file_path;
                          test_file := test_file_path;
                          original_qa_snippet :=
                            relevant_qa_snippet_for_service |})
            end
        end
  end.

(** [for i, service_info in enumerate(services_to_test): ...] *)
Fixpoint generate_from (mocks_dir tests_dir qa_ref_content : str)
    (i : nat) (services_to_test : list service) (envs : nat -> gen_env)
    (generated_assets : list asset) : py (list asset) :=
  match services_to_test with
  | [] => Ret generated_assets
  | service_info :: rest =>
      made <- generate_one mocks_dir tests_dir qa_ref_content i
                service_info (envs i) ;;
      generate_from mocks_dir tests_dir qa_ref_content (S i) rest envs
        match made with
        | Some a => generated_assets ++ [a]
        | None => generated_assets
        end
  end.

Definition generate_assets (mocks_dir tests_dir qa_ref_content : str)
    (services_to_test : list service) (envs : nat -> gen_env)
  : py (list asset) :=
  generate_from mocks_dir tests_dir qa_ref_content 0 services_to_test
    envs [].

(** What one turn of the loop appends. *)
Definition made_from (mocks_dir tests_dir : str) (i : nat) (d : service)
    (a : asset) : Prop :=
  get_port d = Some (asset_port a)
  /\ asset_port a <> 0%Z
  /\ service_name a = name_of i d
  /\ mock_file a
     = path_join mocks_dir
         (file_name "mock" (service_name a) (asset_port a))
  /\ test_file a
     = path_join tests_dir
         (file_name "test" (service_name a) (asset_port a)).

(** Surroundings in which the backend answers every call and an
    orphaned mock can be removed. *)
Definition answers (g : gen_env) : Prop :=
  (exists t, mock_reply g = Reply t)
  /\ (exists t, test_reply g = Reply t)
  /\ orphan_removal g = Ret tt.

(** A backend that returns the same two texts for every service. *)
Definition steady_backend (mock_code test_code : option str) : gen_env :=
  {| mock_reply := Reply mock_code; test_reply := Reply test_code;
     orphan_removal := Ret tt |}.

End Generate.

(* ================================================================== *)
(** * Properties *)

(** ** Strings *)

Section StringFacts.

Example splitlines_ex :
  splitlines "a
b

c
" = [ "a" : str ; "b" : str ; [] ; "c" : str ].
Proof. reflexivity. Qed.

Example int_of_str_ex :
  int_of_str " 12 " = Some 12%Z /\ int_of_str "-5" = Some (-5)%Z
  /\ int_of_str "+7" = Some 7%Z /\ int_of_str "1_000" = Some 1000%Z
  /\ int_of_str "1__0" = None /\ int_of_str "_1" = None
  /\ int_of_str "1_" = None /\ int_of_str "not a port" = None
  /\ int_of_str "" = None /\ int_of_str "007" = Some 7%Z.
Proof. repeat split; reflexivity. Qed.

Example split1_ex :
  split1 ":" "Port: 80:81" = [ "Port" : str ; " 80:81" : str ]
  /\ split1 ":" "no colon" = [ "no colon" : str ].
Proof. split; reflexivity. Qed.

Example str_of_Z_ex :
  str_of_Z 60 = "60" /\ str_of_Z 0 = "0" /\ str_of_Z (-3) = "-3".
Proof. repeat split; reflexivity. Qed.

Lemma startswith_nil (s : str) : startswith [] s = true.
Proof. destruct s; reflexivity. Qed.

Lemma startswith_app (p s : str) : startswith p (p ++ s) = true.
Proof.
  induction p as [|a p IH]; simpl.
  - reflexivity.
  - now rewrite Ascii.eqb_refl.
Qed.

Lemma startswith_inv (p s : str) :
  startswith p s = true -> exists t, s = p ++ t.
Proof.
  revert s; induction p as [|a p IH]; intros s H.
  - now exists s.
  - destruct s as [|b s]; simpl in H; [discriminate|].
    apply andb_true_iff in H as [Hab Hp].
    apply Ascii.eqb_eq in Hab; subst b.
    destruct (IH _ Hp) as [t ->].
    now exists t.
Qed.

Lemma startswith_iff (p s : str) :
  startswith p s = true <-> exists t, s = p ++ t.
Proof.
  split; [apply startswith_inv|].
  intros [t ->]; apply startswith_app.
Qed.

Lemma startswith_skipn (p s : str) :
  startswith p s = true -> s = p ++ skipn (length p) s.
Proof.
  intros H; apply startswith_inv in H as [t ->].
  now rewrite skipn_app, skipn_all, Nat.sub_diag.
Qed.

Lemma contains_iff (n h : str) : contains n h = true <-> occurs_in n h.
Proof.
  unfold occurs_in; induction h as [|c h IH]; simpl.
  - rewrite orb_false_r, startswith_iff; split.
    + intros [t E]; now exists [], t.
    + intros (pre & post & E).
      symmetry in E; apply app_eq_nil in E as [-> E].
      apply app_eq_nil in E as [-> ->]; now exists [].
  - rewrite orb_true_iff, IH, startswith_iff; split.
    + intros [[t E] | (pre & post & E)].
      * now exists [], t.
      * exists (c :: pre), post; now rewrite E.
    + intros (pre & post & E); destruct pre as [|c' pre].
      * left; now exists post.
      * right; injection E as _ E; now exists pre, post.
Qed.

Lemma contains_false_iff (n h : str) :
  contains n h = false <-> ~ occurs_in n h.
Proof.
  rewrite <- contains_iff; destruct (contains n h); intuition congruence.
Qed.

Lemma contains_middle (n pre post : str) :
  contains n (pre ++ n ++ post) = true.
Proof. apply contains_iff; now exists pre, post. Qed.

End StringFacts.

(** ** Outcome classification *)

Section ClassifierFacts.
Import Classifier.

Lemma check_passed_true_iff (rc : Z) (err : str) :
  check_passed rc err = true <->
  rc = 0%Z /\ contains "OK" err = true
  /\ contains "FAIL" err = false /\ contains "ERROR" err = false.
Proof.
  unfold check_passed.
  destruct (Z.eqb_spec rc 0) as [->|Hrc];
    destruct (contains "OK" err), (contains "FAIL" err),
      (contains "ERROR" err); simpl; intuition (try discriminate).
Qed.

(** C2.  The verdict on a run is [Pass] exactly when the exit code is 0
    and the captured stderr contains "OK" and neither "FAIL" nor
    "ERROR"; in every other case it is [Fail].  Exit code 0 with stderr
    "Ran 3 tests in 0.01s", a blank line and "OK" gives [Pass]; exit
    code 1 with a stderr containing "FAILED (failures=1)" gives
    [Fail]. *)
Theorem classify_policy :
  (forall rc err,
      classify rc err = Pass <->
      rc = 0%Z /\ occurs_in "OK" err
      /\ ~ occurs_in "FAIL" err /\ ~ occurs_in "ERROR" err)
  /\ (forall rc err, classify rc err = Fail <-> classify rc err <> Pass)
  /\ classify 0 "Ran 3 tests in 0.01s

OK" = Pass
  /\ (forall pre post,
         classify 1 (pre ++ "FAILED (failures=1)" ++ post) = Fail).
Proof.
  split; [|split; [|split]].
  - intros rc err; unfold classify.
    rewrite <- contains_iff, <- !contains_false_iff,
      <- check_passed_true_iff.
    destruct (check_passed rc err); split; congruence.
  - intros rc err; unfold classify.
    destruct (check_passed rc err); split; congruence.
  - reflexivity.
  - intros pre post.
    assert (H : contains "FAIL" (pre ++ "FAILED (failures=1)" ++ post)
                = true).
    { change (list_ascii_of_string "FAILED (failures=1)")
        with (list_ascii_of_string "FAIL"
                ++ list_ascii_of_string "ED (failures=1)").
      rewrite <- app_assoc; apply contains_middle. }
    unfold classify, check_passed; rewrite H; reflexivity.
Qed.

End ClassifierFacts.

(** ** White space and fences *)

Section StripFacts.

Lemma lstrip_app (m t : str) (c : ascii) :
  isspace c = false -> lstrip (m ++ c :: t) = lstrip m ++ c :: t.
Proof.
  intros Hc; induction m as [|a m IH]; simpl.
  - now rewrite Hc.
  - destruct (isspace a); [exact IH | reflexivity].
Qed.

Lemma lstrip_idem (s : str) : lstrip (lstrip s) = lstrip s.
Proof.
  induction s as [|a s IH]; simpl; [reflexivity|].
  destruct (isspace a) eqn:Ha; [exact IH | simpl; now rewrite Ha].
Qed.

Lemma rstrip_last (x : str) (c : ascii) :
  isspace c = false -> rstrip (x ++ [c]) = x ++ [c].
Proof.
  intros Hc; unfold rstrip.
  rewrite rev_app_distr; simpl; rewrite Hc; simpl.
  now rewrite rev_involutive.
Qed.

Lemma strip_lstrip (s : str) : strip (lstrip s) = strip s.
Proof. unfold strip; now rewrite lstrip_idem. Qed.

Lemma endswith_app (x p : str) : endswith p (x ++ p) = true.
Proof. unfold endswith; rewrite rev_app_distr; apply startswith_app. Qed.

Lemma drop_back_app (x p : str) : drop_back (length p) (x ++ p) = x.
Proof.
  unfold drop_back; rewrite length_app, Nat.add_sub.
  now rewrite firstn_app, firstn_all, Nat.sub_diag, firstn_O, app_nil_r.
Qed.

Lemma drop_front_app (p x : str) : drop_front (length p) (p ++ x) = x.
Proof.
  unfold drop_front.
  now rewrite skipn_app, skipn_all, Nat.sub_diag.
Qed.

End StripFacts.

Section FenceFacts.
Import Fences.

(** A text that still ends in a fence after its head was trimmed. *)
Lemma strip_before_fence (mid : str) :
  strip (mid ++ fence) = lstrip mid ++ fence.
Proof.
  unfold strip, fence.
  change (list_ascii_of_string "```") with ("`" :: ["`"; "`"])%char.
  rewrite lstrip_app by reflexivity.
  change ("`" :: ["`"; "`"])%char with (["`"; "`"] ++ ["`"])%char.
  rewrite app_assoc; apply rstrip_last; reflexivity.
Qed.

Lemma clean_tail (mid : str) :
  (if endswith fence (lstrip mid ++ fence)
   then strip (drop_back (length fence) (lstrip mid ++ fence))
   else lstrip mid ++ fence) = strip mid.
Proof. now rewrite endswith_app, drop_back_app, strip_lstrip. Qed.

Lemma no_fence_no_python_fence (text : str) :
  startswith fence text = false -> startswith python_fence text = false.
Proof.
  intros H; destruct (startswith python_fence text) eqn:E; [|reflexivity].
  apply startswith_inv in E as [t ->].
  unfold python_fence in H.
  change (list_ascii_of_string "```python")
    with (fence ++ list_ascii_of_string "python") in H.
  now rewrite <- app_assoc, startswith_app in H.
Qed.

(** C8, as the code has it.  A text wrapped in "```python" and "```"
    loses exactly that opening and that closing fence; a text wrapped in
    bare "```" fences that does not open with "```python" loses the two
    three-character fences and nothing else of its opening line, so any
    other language tag stays; the white space around what remains is
    trimmed; a text with neither an opening nor a closing fence is
    unchanged. *)
Theorem clean_code_block_contract :
  (forall mid,
      clean_code_block (python_fence ++ mid ++ fence) = strip mid)
  /\ (forall mid,
         startswith python_fence (fence ++ mid ++ fence) = false ->
         clean_code_block (fence ++ mid ++ fence) = strip mid)
  /\ (forall text,
         startswith fence text = false ->
         endswith fence text = false ->
         clean_code_block text = text).
Proof.
  split; [|split].
  - intros mid; unfold clean_code_block.
    rewrite startswith_app, drop_front_app, strip_before_fence.
    apply clean_tail.
  - intros mid H; unfold clean_code_block.
    rewrite H, startswith_app, drop_front_app, strip_before_fence.
    apply clean_tail.
  - intros text Hs He; unfold clean_code_block.
    now rewrite (no_fence_no_python_fence _ Hs), Hs, He.
Qed.

(** The contract at a bare-fenced text and at a text without fences. *)
Lemma clean_code_block_contract_witness :
  (startswith python_fence (fence ++ "
x = 1
" ++ fence) = false
   /\ clean_code_block (fence ++ "
x = 1
" ++ fence) = strip "
x = 1
")
  /\ (startswith fence "x = 1" = false
      /\ endswith fence "x = 1" = false
      /\ clean_code_block "x = 1" = "x = 1").
Proof.
  split.
  - split; [reflexivity|].
    apply (proj1 (proj2 clean_code_block_contract)); reflexivity.
  - split; [reflexivity|]; split; [reflexivity|].
    apply (proj2 (proj2 clean_code_block_contract)); reflexivity.
Defined.

(** C8 as stated fails on a tag other than "python": the fence goes,
    the tag stays in the text. *)
Lemma clean_code_block_keeps_tag :
  clean_code_block "```json
{}
```" = "json
{}"
  /\ clean_code_block "```json
{}
```" <> "{}".
Proof. split; [reflexivity | discriminate]. Qed.

End FenceFacts.

(** ** Test runner *)

Section RunnerFacts.
Import Runner.

(** C5, as the code has it.  Whatever the child process does, also
    when [subprocess.run] raises, the runner returns a triple and raises
    nothing; on a timeout the triple is an empty stdout, the synthetic
    message "Script execution timed out after <timeout> seconds." as
    stderr and the exit code 1, which is not zero.  The triple has no
    field that records the timeout. *)
Theorem run_script_never_raises :
  forall script_path timeout run,
    (exists out err rc,
        run_script_and_get_output script_path timeout run
        = Ret (out, err, rc))
    /\ run_script_and_get_output script_path timeout (Raise TimeoutExpired)
       = Ret ([], "Script execution timed out after " ++ str_of_Z timeout
                  ++ " seconds.", 1%Z)
    /\ run_script_and_get_output script_path 60 (Raise TimeoutExpired)
       = Ret ([], "Script execution timed out after 60 seconds." : str, 1%Z)
    /\ 1%Z <> 0%Z.
Proof.
  intros script_path timeout run; split; [|repeat split; discriminate].
  destruct run as [[out err rc] | e]; simpl; [now eexists _, _, _|].
  destruct e; simpl; now eexists _, _, _.
Qed.

(** C5 as stated fails: a run that timed out and a run that completed
    with the same stderr and exit code 1 give the same result, so no
    reading of the result is a flag that is set exactly on a timeout. *)
Lemma timeout_flag_absent :
  run_script_and_get_output "test_a.py" 60 (Raise TimeoutExpired)
  = run_script_and_get_output "test_a.py" 60
      (Ret {| stdout := []; stderr := timeout_message 60;
              returncode := 1 |})
  /\ ~ (exists timed_out : py output -> bool,
           (forall path t,
               timed_out (run_script_and_get_output path t
                            (Raise TimeoutExpired)) = true)
           /\ (forall path t r,
                  timed_out (run_script_and_get_output path t (Ret r))
                  = false)).
Proof.
  split; [reflexivity|].
  intros (f & Ht & Hc).
  specialize (Ht ("test_a.py" : str) 60%Z).
  specialize (Hc ("test_a.py" : str) 60%Z
                {| stdout := []; stderr := timeout_message 60;
                   returncode := 1 |}).
  change (run_script_and_get_output "test_a.py" 60 (Raise TimeoutExpired))
    with (run_script_and_get_output "test_a.py" 60
            (Ret {| stdout := []; stderr := timeout_message 60;
                    returncode := 1 |})) in Ht.
  congruence.
Qed.

End RunnerFacts.

(** ** Process supervisor *)

Section SupervisorFacts.
Import Supervisor.

Lemma stop_exited (p : process) :
  stop_background_process (with_state p Exited)
  = Some (with_state p Exited, 0).
Proof. reflexivity. Qed.

(** The stop operation in closed form, by what the process would do. *)
Lemma stop_outcome (p : process) :
  stop_background_process p
  = match state p with
    | Exited => Some (p, 0)
    | Alive (Some 0) => Some (with_state p Exited, 0)
    | Alive ttl =>
        match sooner ttl (on_terminate p) with
        | Some d =>
            if d <=? 5 then Some (gone p [SIGTERM], d)
            else Some (gone p [SIGTERM; SIGKILL],
                       5 + Nat.min (d - 5) (on_kill p))
        | None => Some (gone p [SIGTERM; SIGKILL], 5 + on_kill p)
        end
    end.
Proof.
  destruct p as [[|[[|ttl]|]] [t|] k r]; try reflexivity;
    unfold stop_background_process, poll_is_none, polled, terminate, kill,
      send_signal, reaction, wait_timeout, wait, with_state, gone, sooner;
    cbn -[Nat.min Nat.leb Nat.sub].
  all: repeat match goal with
         | |- context [?a <=? ?b] =>
             destruct (Nat.leb_spec a b); cbn -[Nat.min Nat.leb Nat.sub]
         end.
  all: try reflexivity.
  all: rewrite <- app_assoc; reflexivity.
Qed.

(** C9, as the code has it.  For every process the stop operation
    returns, the process is not running afterwards, and a second stop
    sends nothing and returns at once.  A process found exited is sent
    nothing.  A running one is sent terminate; if it exits within the
    five seconds of the graceful wait, nothing else is sent and the stop
    has waited until that exit; if not, as when the process traps the
    signal, it is sent kill after those five seconds and the stop waits
    for its exit, however long the system takes to end it. *)
Theorem stop_guaranteed :
  forall p,
    (exists p' waited,
        stop_background_process p = Some (p', waited)
        /\ running p' = false
        /\ stop_background_process p' = Some (p', 0)
        /\ match state p with
           | Exited | Alive (Some 0) =>
               received p' = received p /\ waited = 0
           | Alive ttl =>
               match sooner ttl (on_terminate p) with
               | Some d =>
                   if d <=? 5
                   then received p' = received p ++ [SIGTERM]
                        /\ waited = d
                   else received p' = received p ++ [SIGTERM; SIGKILL]
                        /\ waited = 5 + Nat.min (d - 5) (on_kill p)
               | None =>
                   received p' = received p ++ [SIGTERM; SIGKILL]
                   /\ waited = 5 + on_kill p
               end
           end)
    /\ (forall kill_latency sent,
           stop_background_process (stubborn kill_latency sent)
           = Some (gone (stubborn kill_latency sent) [SIGTERM; SIGKILL],
                   5 + kill_latency))
    /\ stop_background_process (with_state p Exited)
       = Some (with_state p Exited, 0).
Proof.
  intros p; split;
    [|split; [intros k sent; now rewrite stop_outcome | apply stop_exited]].
  rewrite stop_outcome.
  destruct (state p) as [|[[|ttl]|]] eqn:Hs.
  - exists p, 0; repeat split; try reflexivity.
    + unfold running; now rewrite Hs.
    + rewrite stop_outcome; now rewrite Hs.
  - eexists _, _; repeat split; reflexivity.
  - destruct (sooner _ (on_terminate p)) as [d|];
      [destruct (d <=? 5)|]; eexists _, _; repeat split; reflexivity.
  - destruct (sooner _ (on_terminate p)) as [d|];
      [destruct (d <=? 5)|]; eexists _, _; repeat split; reflexivity.
Qed.

(** C9 as stated fails: the wait that follows the kill has no timeout,
    so no kill timeout bounds the time of the stop.  A process that
    traps terminate and takes an hour to be ended keeps the stop waiting
    for an hour and five seconds, and whatever bound is proposed, some
    process keeps the stop waiting longer. *)
Lemma no_kill_timeout :
  stop_background_process (stubborn 3600 [])
  = Some (gone (stubborn 3600 []) [SIGTERM; SIGKILL], 3605)
  /\ ~ (exists kill_timeout,
          forall p p' waited,
            stop_background_process p = Some (p', waited) ->
            waited <= 5 + kill_timeout).
Proof.
  split; [now rewrite stop_outcome|].
  intros [kill_timeout H].
  specialize (H (stubborn (S kill_timeout) [])
                (gone (stubborn (S kill_timeout) []) [SIGTERM; SIGKILL])
                (5 + S kill_timeout)).
  rewrite stop_outcome in H; specialize (H eq_refl); lia.
Qed.

End SupervisorFacts.

(** ** Service catalog *)

Section CatalogFacts.
Import Catalog CatalogSpec.

Lemma partition_colon (p rest : str) :
  forallb (fun c => negb (Ascii.eqb ":" c)) p = true ->
  partition ":" (p ++ ":"%char :: rest) = Some (p, rest).
Proof.
  induction p as [|c p IH]; intros H.
  - reflexivity.
  - cbn [forallb] in H; apply andb_true_iff in H as [Hc Hp].
    apply negb_true_iff in Hc.
    cbn [app partition list_ascii_of_string startswith].
    rewrite Hc; cbn [andb].
    specialize (IH Hp); cbn [list_ascii_of_string] in IH.
    now rewrite IH.
Qed.

Lemma field_value_after (p line : str) :
  forallb (fun c => negb (Ascii.eqb ":" c)) p = true ->
  startswith (p ++ ":") line = true ->
  field_value line = Ret (strip (skipn (length p + 1) line)).
Proof.
  intros Hp H; apply startswith_inv in H as [rest ->].
  unfold field_value, split1.
  rewrite <- app_assoc; cbn [list_ascii_of_string app].
  rewrite (partition_colon _ _ Hp); cbn [item nth_error py_bind].
  rewrite skipn_app, skipn_all2 by lia.
  replace (length p + 1 - length p) with 1 by lia.
  reflexivity.
Qed.

Lemma field_value_name (line : str) :
  startswith "Service Name:" line = true ->
  field_value line = Ret (strip (skipn 13 line)).
Proof. apply (field_value_after "Service Name"); reflexivity. Qed.

Lemma field_value_port (line : str) :
  startswith "Port:" line = true ->
  field_value line = Ret (strip (skipn 5 line)).
Proof. apply (field_value_after "Port"); reflexivity. Qed.

Lemma field_value_functionality (line : str) :
  startswith "Functionality Summary:" line = true ->
  field_value line = Ret (strip (skipn 22 line)).
Proof. apply (field_value_after "Functionality Summary"); reflexivity. Qed.

Lemma truthy_apply_field (d : service) (line : str) :
  truthy d = true -> truthy (apply_field d line) = true.
Proof.
  intros H; unfold apply_field.
  destruct (startswith "Port:" line).
  { unfold truthy, set_port; simpl; now destruct (name d). }
  destruct (startswith "Functionality Summary:" line); [|exact H].
  unfold truthy, set_functionality; simpl.
  now destruct (name d), (port d).
Qed.

(** The three shapes of one turn of the loop. *)
Lemma parse_line_name (svcs : list service) (cur : service) (line : str) :
  is_name_line line = true ->
  parse_line (svcs, cur) line
  = Ret (if truthy cur then svcs ++ [cur] else svcs,
         new_service (strip (skipn 13 line))).
Proof.
  unfold is_name_line; intros H; unfold parse_line.
  now rewrite H, (field_value_name _ H).
Qed.

Lemma parse_line_field (svcs : list service) (cur : service) (line : str) :
  is_name_line line = false -> truthy cur = true ->
  parse_line (svcs, cur) line = Ret (svcs, apply_field cur line).
Proof.
  unfold is_name_line; intros H Ht; unfold parse_line, apply_field.
  rewrite H, Ht, !andb_true_r.
  destruct (startswith "Port:" line) eqn:Hp.
  - rewrite (field_value_port _ Hp); simpl.
    now destruct (int_of_str _).
  - destruct (startswith "Functionality Summary:" line) eqn:Hf;
      [|reflexivity].
    now rewrite (field_value_functionality _ Hf).
Qed.

Lemma parse_line_skip (svcs : list service) (cur : service) (line : str) :
  is_name_line line = false -> truthy cur = false ->
  parse_line (svcs, cur) line = Ret (svcs, cur).
Proof.
  unfold is_name_line; intros H Ht; unfold parse_line.
  now rewrite H, Ht, !andb_false_r.
Qed.

Lemma parse_from_buffered (lines : list str) :
  forall svcs cur,
    truthy cur = true ->
    exists svcs' cur',
      parse_lines_from (svcs, cur) lines = Ret (svcs', cur')
      /\ truthy cur' = true
      /\ svcs' ++ [cur']
         = svcs ++ fold_left apply_field (block_body lines) cur
             :: map descriptor_of_block (record_blocks lines).
Proof.
  induction lines as [|l t IH]; intros svcs cur Hc.
  - now exists svcs, cur.
  - cbn [parse_lines_from block_body record_blocks].
    destruct (is_name_line l) eqn:Hl.
    + rewrite (parse_line_name _ _ _ Hl), Hc; cbn [py_bind].
      destruct (IH (svcs ++ [cur]) (new_service (strip (skipn 13 l)))
                  eq_refl) as (svcs' & cur' & E & Ht & Hs).
      exists svcs', cur'; repeat split; try assumption.
      rewrite Hs, <- app_assoc; reflexivity.
    + rewrite (parse_line_field _ _ _ Hl Hc); cbn [py_bind].
      destruct (IH svcs (apply_field cur l) (truthy_apply_field _ _ Hc))
        as (svcs' & cur' & E & Ht & Hs).
      exists svcs', cur'; repeat split; assumption.
Qed.

Lemma parse_from_start (lines : list str) :
  exists st,
    parse_lines_from ([], empty_dict) lines = Ret st
    /\ flush st = map descriptor_of_block (record_blocks lines).
Proof.
  induction lines as [|l t IH].
  - now exists ([], empty_dict).
  - cbn [parse_lines_from record_blocks].
    destruct (is_name_line l) eqn:Hl.
    + rewrite (parse_line_name _ _ _ Hl); cbn [py_bind truthy empty_dict
        name port functionality].
      destruct (parse_from_buffered t [] (new_service (strip (skipn 13 l)))
                  eq_refl) as (svcs' & cur' & E & Ht & Hs).
      exists (svcs', cur'); split; [exact E|].
      unfold flush; now rewrite Ht, Hs.
    + rewrite (parse_line_skip [] empty_dict _ Hl eq_refl); exact IH.
Qed.

Lemma port_ok_valid (d : service) : port_ok (get_port d) = valid d.
Proof. unfold port_ok, get_port, valid; now destruct (port d) as [[z|]|]. Qed.

Lemma generation_filter (l : list service) :
  services_for_generation l = filter valid l.
Proof.
  unfold services_for_generation; apply filter_ext; apply port_ok_valid.
Qed.

Lemma generation_finish (st : parser_state) :
  services_for_generation (finish st) = filter valid (flush st).
Proof.
  destruct st as [svcs cur]; rewrite generation_filter.
  unfold finish, flush, last_is_kept.
  destruct (truthy cur); [|reflexivity].
  destruct (port cur) as [[z|]|] eqn:Hp; cbn [andb]; try reflexivity.
  all: assert (Hv : valid cur = false) by (unfold valid; now rewrite Hp).
  all: rewrite filter_app; cbn [filter]; now rewrite Hv, app_nil_r.
Qed.

Lemma valid_port (d : service) :
  valid d = true -> exists z, port d = Some (Some z) /\ z <> 0%Z.
Proof.
  unfold valid; destruct (port d) as [[z|]|]; try discriminate.
  intros H; exists z; split; [reflexivity|].
  apply negb_true_iff, Z.eqb_neq in H; exact H.
Qed.

(** C6, as the code has it.  For every catalog text the parse and the
    port filter return without an error; the services that go on to
    asset generation are the descriptors of the record blocks of the
    text whose port parsed as an integer other than zero, in the order
    of their blocks; so every one of them has such a port, and a record
    whose port field failed to parse is not among them.  (The port may
    be negative.) *)
Theorem usable_catalog_correct :
  forall text,
    exists catalog,
      usable_catalog text = Ret catalog
      /\ catalog
         = filter valid
             (map descriptor_of_block (record_blocks (splitlines text)))
      /\ Forall (fun d => exists z, port d = Some (Some z) /\ z <> 0%Z)
           catalog
      /\ Forall (fun d => port d <> Some None) catalog.
Proof.
  intros text.
  destruct (parse_from_start (splitlines text)) as (st & E & Hf).
  exists (services_for_generation (finish st)).
  assert (Hcat : services_for_generation (finish st)
                 = filter valid
                     (map descriptor_of_block
                        (record_blocks (splitlines text)))).
  { now rewrite generation_finish, Hf. }
  assert (Hall : Forall (fun d => exists z,
                             port d = Some (Some z) /\ z <> 0%Z)
                   (services_for_generation (finish st))).
  { rewrite Hcat; apply Forall_forall; intros d Hd.
    apply filter_In in Hd as [_ Hv]; now apply valid_port. }
  repeat split; try assumption.
  - unfold usable_catalog, parse_services, parse_lines.
    now rewrite E.
  - eapply Forall_impl; [|exact Hall].
    intros d (z & Hz & _); congruence.
Qed.

(** Three blocks, the second with a port that is not a number: two
    descriptors, in the order of the text. *)
Example three_blocks_two_descriptors :
  usable_catalog "Service Name: Test Service 1
Port: 12345
Functionality Summary: Test functionality 1

Service Name: Invalid Service
Port: not a port
Functionality Summary: Test functionality 3

Service Name: Test Service 2
Port: 54321
Functionality Summary: Test functionality 2
"
  = Ret [ {| name := Some ("Test Service 1" : str);
             port := Some (Some 12345%Z);
             functionality := Some ("Test functionality 1" : str) |};
          {| name := Some ("Test Service 2" : str);
             port := Some (Some 54321%Z);
             functionality := Some ("Test functionality 2" : str) |} ].
Proof. reflexivity. Qed.

(** C6 as stated fails on a negative port: the record goes on to asset
    generation although its port is not a positive integer. *)
Lemma negative_port_survives :
  usable_catalog "Service Name: A
Port: -5"
  = Ret [ {| name := Some ("A" : str); port := Some (Some (-5)%Z);
             functionality := None |} ]
  /\ ~ (0 < -5)%Z.
Proof. split; [reflexivity | lia]. Qed.

Lemma parse_skips_leading (pre rest : list str) :
  Forall (fun l => is_name_line l = false) pre ->
  parse_lines_from ([], empty_dict) (pre ++ rest)
  = parse_lines_from ([], empty_dict) rest.
Proof.
  induction 1 as [|l pre Hl _ IH]; [reflexivity|].
  cbn [app parse_lines_from].
  now rewrite (parse_line_skip [] empty_dict _ Hl eq_refl).
Qed.

(** C10.  For every catalog text, the lines before the first name line
    change nothing: the parse of the text is the parse of the lines from
    the first name line on, and it returns a list without raising. *)
Theorem leading_fields_discarded :
  forall text pre rest,
    splitlines text = pre ++ rest ->
    Forall (fun l => startswith "Service Name:" l = false) pre ->
    parse_services text = parse_lines rest
    /\ exists services, parse_services text = Ret services.
Proof.
  intros text pre rest E Hpre; unfold parse_services, parse_lines.
  rewrite E, (parse_skips_leading _ rest Hpre); split; [reflexivity|].
  destruct (parse_from_start rest) as (st & Est & _).
  rewrite Est; now eexists.
Qed.

(** The discard at a text that opens with a port and a functionality
    line. *)
Lemma leading_fields_discarded_witness :
  parse_services "Port: 7
Functionality Summary: stray
Service Name: A
Port: 12"
  = parse_lines [ "Service Name: A" : str ; "Port: 12" : str ]
  /\ exists services,
      parse_services "Port: 7
Functionality Summary: stray
Service Name: A
Port: 12" = Ret services.
Proof.
  apply (leading_fields_discarded _
           [ "Port: 7" : str ; "Functionality Summary: stray" : str ]).
  - reflexivity.
  - repeat constructor.
Defined.

End CatalogFacts.

(** ** Iterative testing *)

Section RefineFacts.
Import Refine.
Local Open Scope stmt_scope.

(** *** Steady statements *)

Lemma steady_refl (s : st) : steady s s [].
Proof. repeat split; auto; constructor. Qed.

Lemma steady_trans (s s1 s2 : st) (e1 e2 : list event) :
  steady s s1 e1 -> steady s1 s2 e2 -> steady s s2 (e1 ++ e2).
Proof.
  intros (Q1 & M1 & P1 & F1) (Q2 & M2 & P2 & F2); repeat split.
  - apply Forall_app; now split.
  - congruence.
  - congruence.
  - auto.
Qed.

Section Obeys.
Context (B : loop_exit -> Prop).

Lemma obeys_ret {A} (a : A) : obeys B (ret a).
Proof.
  intros s c s' evs H; injection H as <- <- <-.
  split; [apply steady_refl | discriminate].
Qed.

Lemma obeys_bind {A C} (m : M A) (k : A -> M C) :
  obeys B m -> (forall a, obeys B (k a)) -> obeys B (bind m k).
Proof.
  intros Hm Hk s c s' evs H; unfold bind in H.
  destruct (m s) as [[c1 s1] ev1] eqn:Em.
  destruct (Hm _ _ _ _ Em) as [S1 B1].
  destruct c1 as [a | r | x].
  - destruct (k a s1) as [[c2 s2] ev2] eqn:Ek.
    injection H as <- <- <-.
    destruct (Hk _ _ _ _ _ Ek) as [S2 B2].
    split; [eapply steady_trans; eassumption | exact B2].
  - injection H as <- <- <-; split; [exact S1|].
    intros r' E; injection E as <-; now apply B1.
  - injection H as <- <- <-; split; [exact S1 | discriminate].
Qed.

Lemma obeys_emit (e : event) : quiet_event e = true -> obeys B (emit e).
Proof.
  intros He s c s' evs H; injection H as <- <- <-.
  split; [|discriminate].
  repeat split; auto; now repeat constructor.
Qed.

Lemma obeys_modify (f : st -> st) :
  (forall s, steady s (f s) []) -> obeys B (modify f).
Proof.
  intros Hf s c s' evs H; injection H as <- <- <-.
  split; [apply Hf | discriminate].
Qed.

Lemma obeys_gets {A} (f : st -> A) : obeys B (gets f).
Proof.
  intros s c s' evs H; injection H as <- <- <-.
  split; [apply steady_refl | discriminate].
Qed.

Lemma obeys_throw {A} (x : exn) : obeys B (@throw A x).
Proof.
  intros s c s' evs H; injection H as <- <- <-.
  split; [apply steady_refl | discriminate].
Qed.

Lemma obeys_break {A} (r : loop_exit) : B r -> obeys B (@break A r).
Proof.
  intros Hr s c s' evs H; injection H as <- <- <-.
  split; [apply steady_refl|].
  intros r' E; now injection E as <-.
Qed.

Lemma obeys_lift {A} (m : py A) : obeys B (lift m).
Proof. destruct m; [apply obeys_ret | apply obeys_throw]. Qed.

Lemma steady_set_overall_false (s : st) : steady s (set_overall false s) [].
Proof. repeat split; auto; [constructor | discriminate]. Qed.

Lemma steady_set_mock_code (c : option str) (s : st) :
  steady s (set_mock_code c s) [].
Proof. repeat split; auto; constructor. Qed.

Lemma steady_set_test_code (c : option str) (s : st) :
  steady s (set_test_code c s) [].
Proof. repeat split; auto; constructor. Qed.

Lemma obeys_len_of (x : option str) : obeys B (len_of x).
Proof. destruct x; [apply obeys_ret | apply obeys_throw]. Qed.

Lemma obeys_build_prompt : obeys B build_prompt.
Proof.
  unfold build_prompt.
  apply obeys_bind; [apply obeys_gets | intros mock_code].
  apply obeys_bind; [apply obeys_gets | intros test_code].
  apply obeys_bind; [apply obeys_len_of | intros _].
  apply obeys_bind; [apply obeys_len_of | intros _].
  apply obeys_ret.
Qed.

Lemma obeys_edge_case_prompt : obeys B edge_case_prompt.
Proof.
  unfold edge_case_prompt.
  apply obeys_bind; [apply obeys_build_prompt | intros _].
  apply obeys_throw.
Qed.

Lemma obeys_call (r : llm_reply) (mark : event) :
  quiet_event mark = true -> obeys B (call_ollama_llm r mark).
Proof.
  intros Hm; unfold call_ollama_llm.
  apply obeys_bind; [now apply obeys_emit | intros _].
  destruct r; [apply obeys_ret | apply obeys_throw].
Qed.

Lemma obeys_apply_mock_update (fix_suggestion : str) :
  obeys B (apply_mock_update fix_suggestion).
Proof.
  unfold apply_mock_update.
  destruct (contains new_mock_code_marker fix_suggestion);
    [|apply obeys_ret].
  apply obeys_bind; [apply obeys_lift | intros x].
  apply obeys_bind.
  { destruct (contains new_test_code_marker x);
      [apply obeys_lift | apply obeys_ret]. }
  intros y; apply obeys_bind.
  - apply obeys_modify, steady_set_mock_code.
  - intros _; now apply obeys_emit.
Qed.

Lemma obeys_apply_test_update (fix_suggestion : str) :
  obeys B (apply_test_update fix_suggestion).
Proof.
  unfold apply_test_update.
  destruct (contains new_test_code_marker fix_suggestion);
    [|apply obeys_ret].
  apply obeys_bind; [apply obeys_lift | intros x].
  apply obeys_bind.
  { destruct (contains new_mock_code_marker x);
      [apply obeys_lift | apply obeys_ret]. }
  intros y; apply obeys_bind.
  - apply obeys_modify, steady_set_test_code.
  - intros _; now apply obeys_emit.
Qed.

End Obeys.

Lemma obeys_repair (e : attempt_env) : obeys repair_break (repair e).
Proof.
  unfold repair.
  apply obeys_bind; [apply obeys_build_prompt | intros _].
  apply obeys_bind; [now apply obeys_call | intros reply].
  destruct (text_of reply) as [fix_suggestion|];
    [|apply obeys_break; now left].
  apply obeys_bind; [apply obeys_apply_mock_update | intros _].
  apply obeys_bind; [apply obeys_apply_test_update | intros _].
  destruct (negb _); [apply obeys_break; now right | apply obeys_ret].
Qed.

Lemma obeys_request_fix (e : attempt_env) :
  obeys repair_break (request_fix e).
Proof.
  unfold request_fix.
  apply obeys_bind;
    [apply obeys_modify, steady_set_overall_false | intros _].
  apply obeys_repair.
Qed.

Lemma obeys_on_pass (e : attempt_env) :
  obeys (fun r => r = TestsPassed) (on_pass e).
Proof.
  unfold on_pass.
  apply obeys_bind; [apply obeys_edge_case_prompt | intros _].
  apply obeys_bind; [now apply obeys_call | intros _].
  now apply obeys_break.
Qed.

(** *** One attempt *)

Lemma bind_modify {A} (f : st -> st) (k : unit -> M A) (s : st) :
  bind (modify f) k s = k tt (f s).
Proof.
  unfold bind, modify.
  destruct (k tt (f s)) as [[c s'] evs]; reflexivity.
Qed.

Lemma bind_emit {A} (x : event) (k : unit -> M A) (s : st) :
  bind (emit x) k s
  = let '(c, s', evs) := k tt s in (c, s', x :: evs).
Proof.
  unfold bind, emit.
  destruct (k tt s) as [[c s'] evs]; reflexivity.
Qed.

Lemma bind_ret {A C} (a : A) (k : A -> M C) (s : st) :
  bind (ret a) k s = k a s.
Proof.
  unfold bind, ret.
  destruct (k a s) as [[c s'] evs]; reflexivity.
Qed.

Lemma request_fix_flag (e : attempt_env) (s s' : st) (c : ctl unit)
    (evs : list event) :
  request_fix e s = (c, s', evs) -> all_tests_passed_overall s' = false.
Proof.
  unfold request_fix; rewrite bind_modify; intros H.
  destruct (obeys_repair e _ _ _ _ H) as [(_ & _ & _ & Hflag) _].
  destruct (all_tests_passed_overall s'); [|reflexivity].
  now specialize (Hflag eq_refl).
Qed.

Lemma on_pass_leaves (e : attempt_env) (s : st) {s' : st} {c : ctl unit}
    {evs : list event} :
  on_pass e s = (c, s', evs) ->
  (c = Break TestsPassed
   /\ all_tests_passed_overall s' = all_tests_passed_overall s)
  \/ exists x, c = Throw x.
Proof.
  unfold on_pass, edge_case_prompt, build_prompt, call_ollama_llm, len_of,
    bind, gets, emit, ret, throw, break.
  destruct (current_mock_code s), (current_test_code s);
    simpl; intros H; injection H as <- <- <-; eauto.
Qed.

Section AttemptFacts.
Variable budget : nat.

Lemma evaluate_pass (e : attempt_env) (attempt : nat) (s s' : st)
    (c : ctl unit) (evs : list event) :
  evaluate budget e attempt true s = (c, s', evs) ->
  (c = Break TestsPassed
   /\ all_tests_passed_overall s' = all_tests_passed_overall s)
  \/ exists x, c = Throw x.
Proof.
  unfold evaluate; cbn [negb andb]; unfold bind at 1.
  destruct (on_pass e s) as [[c1 s1] ev1] eqn:E.
  destruct (on_pass_leaves _ _ E) as [[-> Hf] | [x ->]];
    intros H; injection H as <- <- <-; eauto.
Qed.

Lemma evaluate_fail (e : attempt_env) (attempt : nat) (s s' : st)
    (c : ctl unit) (evs : list event) :
  evaluate budget e attempt false s = (c, s', evs) ->
  c <> Break TestsPassed
  /\ (attempt <= budget -> all_tests_passed_overall s' = false).
Proof.
  unfold evaluate; cbn [negb andb]; rewrite bind_ret.
  destruct (Nat.ltb_spec attempt budget) as [Hlt | Hge].
  - intros H; split.
    + destruct (obeys_request_fix e _ _ _ _ H) as [_ Hb].
      intros ->; destruct (Hb _ eq_refl); discriminate.
    + intros _; eapply request_fix_flag; eassumption.
  - destruct (Nat.eqb_spec attempt budget) as [-> | Hne];
      intros H; injection H as <- <- <-; split;
      try discriminate; try reflexivity; lia.
Qed.

Lemma evaluate_obeys (e : attempt_env) (attempt : nat) (p : bool) :
  obeys (fun r => r = TestsPassed \/ repair_break r)
    (evaluate budget e attempt p).
Proof.
  assert (Hweak : forall A (B B' : loop_exit -> Prop) (m : M A),
             (forall r, B r -> B' r) -> obeys B m -> obeys B' m).
  { intros A B B' m HB Hm s c s' evs H.
    destruct (Hm _ _ _ _ H) as [S Hb]; split; [exact S|].
    intros r E; apply HB; now apply Hb. }
  unfold evaluate; apply obeys_bind.
  - destruct p; [|apply obeys_ret].
    eapply Hweak; [|apply obeys_on_pass]; intros r ->; now left.
  - intros _; destruct (negb p && (attempt <? budget)).
    + eapply Hweak; [|apply obeys_request_fix]; intros r Hr; now right.
    + destruct (negb p && (attempt =? budget));
        [apply obeys_modify, steady_set_overall_false | apply obeys_ret].
Qed.

Lemma try_block_no_handle (e : attempt_env) (attempt : nat) (s : st) :
  start_ok e = false ->
  try_block budget e attempt s
  = (Break StartFailed,
     set_overall false (set_mock_process false s), [Started false]).
Proof. intros H; unfold try_block; now rewrite H. Qed.

Lemma try_block_handle (e : attempt_env) (attempt : nat) (s : st) :
  start_ok e = true ->
  try_block budget e attempt s
  = let '(c, s', tail) :=
      evaluate budget e attempt (verdict_of e)
        (set_passed (verdict_of e) (set_mock_process true s)) in
    (c, s', Started true :: Ran :: Classified (verdict_of e) :: tail).
Proof.
  intros H; unfold try_block, verdict_of; rewrite H.
  destruct (run_output e) as [[out err] rc].
  rewrite bind_emit, bind_modify; cbn [negb].
  rewrite bind_emit, bind_modify, bind_emit.
  destruct (evaluate _ _ _ _ _) as [[c s'] tail]; reflexivity.
Qed.

Lemma attempt_body_no_handle (e : attempt_env) (attempt : nat) (s : st) :
  start_ok e = false ->
  attempt_body budget e attempt s
  = (Some StartFailed,
     set_overall false (set_mock_process false (set_mock_process false s)),
     [Started false]).
Proof.
  intros H; unfold attempt_body.
  now rewrite (try_block_no_handle _ _ _ H).
Qed.

(** An attempt that got a handle: start, run, check, then the quiet
    steps, and the stop as the last event. *)
Lemma attempt_body_handle (e : attempt_env) (attempt : nat) (s : st) :
  start_ok e = true ->
  exists brk s' tail,
    attempt_body budget e attempt s
    = (brk, s',
       Started true :: Ran :: Classified (verdict_of e)
         :: tail ++ [Stopped])
    /\ quiet tail
    /\ passed s' = Some (verdict_of e)
    /\ (all_tests_passed_overall s' = true ->
        all_tests_passed_overall s = true)
    /\ (all_tests_passed_overall s' = true -> attempt <= budget ->
        brk = Some TestsPassed)
    /\ (brk = Some TestsPassed -> verdict_of e = true)
    /\ (brk = None -> verdict_of e = false)
    /\ brk <> Some RangeDone.
Proof.
  intros H; unfold attempt_body.
  rewrite (try_block_handle _ _ _ H).
  set (p := verdict_of e).
  set (s0 := set_passed p (set_mock_process true (set_mock_process false s))).
  destruct (evaluate budget e attempt p s0) as [[c s1] tail] eqn:E.
  destruct (evaluate_obeys _ _ _ _ _ _ _ E) as [(Hq & Hm & Hp & Hf) Hb].
  assert (Hm1 : mock_process s1 = true) by exact Hm.
  assert (Hp1 : passed s1 = Some p) by exact Hp.
  assert (Hf1 : all_tests_passed_overall s1 = true ->
                all_tests_passed_overall s = true) by exact Hf.
  assert (Hcases :
            (p = true /\ (c = Break TestsPassed \/ exists x, c = Throw x))
            \/ (p = false /\ c <> Break TestsPassed
                /\ (attempt <= budget ->
                    all_tests_passed_overall s1 = false))).
  { destruct p eqn:Ep.
    - left; split; [reflexivity|].
      destruct (evaluate_pass _ _ _ _ _ _ E) as [[-> _] | Hx]; auto.
    - right; split; [reflexivity|]; eapply evaluate_fail; eassumption. }
  clear E Hm Hp Hf.
  destruct c as [[] | r | x]; cbn [mock_process set_overall]; rewrite Hm1.
  - exists None, s1, tail; repeat split; auto; try discriminate.
    + intros Ht Hle; destruct Hcases as [[_ [Hc | [x Hc]]] | (_ & _ & Hc)];
        try discriminate; rewrite (Hc Hle) in Ht; discriminate.
    + intros _; destruct Hcases as [[_ [Hc | [x Hc]]] | (Hc & _)];
        try discriminate; exact Hc.
  - exists (Some r), s1, tail; repeat split; auto; try discriminate.
    + intros Ht Hle; destruct Hcases as [[_ [Hc | [x Hc]]] | (_ & _ & Hc)];
        try discriminate; [congruence|].
      rewrite (Hc Hle) in Ht; discriminate.
    + intros Hr; destruct Hcases as [[Hc _] | (_ & Hc & _)];
        [exact Hc | congruence].
    + intros Hr; injection Hr as ->.
      destruct (Hb _ eq_refl) as [? | [? | ?]]; discriminate.
  - exists (Some Unexpected), (set_overall false s1), tail.
    repeat split; auto; try discriminate.
Qed.

End AttemptFacts.

(** *** Counting events *)

Lemma count_app (f : event -> bool) (a b : list event) :
  count f (a ++ b) = count f a + count f b.
Proof. unfold count; now rewrite filter_app, length_app. Qed.

Lemma count_quiet (f : event -> bool) (evs : list event) :
  (forall e, quiet_event e = true -> f e = false) ->
  quiet evs -> count f evs = 0.
Proof.
  intros Hf; induction 1 as [|e evs He _ IH]; [reflexivity|].
  unfold count in *; simpl; now rewrite (Hf _ He).
Qed.

Lemma count_cons (f : event -> bool) (e : event) (evs : list event) :
  count f (e :: evs) = b2n (f e) + count f evs.
Proof. unfold count; simpl; now destruct (f e). Qed.

Lemma count_handle (f : event -> bool) (p : bool) (tail : list event) :
  (forall e, quiet_event e = true -> f e = false) ->
  quiet tail ->
  count f (Started true :: Ran :: Classified p :: tail ++ [Stopped])
  = b2n (f (Started true)) + b2n (f Ran) + b2n (f (Classified p))
    + b2n (f Stopped).
Proof.
  intros Hf Hq.
  rewrite !count_cons, count_app, (count_quiet f tail Hf Hq), count_cons.
  unfold count; simpl; lia.
Qed.

(** *** The retry loop *)

Section LoopFacts.
Variable budget : nat.

Lemma retry_loop_counts (env : nat -> attempt_env) (attempts : list nat) :
  forall s,
  exists r s' evs,
    retry_loop budget env attempts s = (r, s', evs)
    /\ count is_started evs <= length attempts
    /\ count is_ran evs <= count is_started evs
    /\ count is_classified evs = count is_ran evs
    /\ count is_stopped evs = count acquired evs
    /\ (r = RangeDone -> count is_started evs = length attempts).
Proof.
  induction attempts as [|a rest IH]; intros s.
  - exists RangeDone, s, []; repeat split; auto.
  - cbn [retry_loop].
    destruct (start_ok (env a)) eqn:Hs.
    + destruct (attempt_body_handle budget _ a s Hs)
        as (brk & s1 & tail & E & Hq & _ & _ & _ & _ & _ & Hnr).
      rewrite E.
      assert (C1 : count is_started
                     (Started true :: Ran :: Classified (verdict_of (env a))
                        :: tail ++ [Stopped]) = 1).
      { rewrite count_handle; auto; now intros []. }
      assert (C2 : count is_ran
                     (Started true :: Ran :: Classified (verdict_of (env a))
                        :: tail ++ [Stopped]) = 1).
      { rewrite count_handle; auto; now intros []. }
      assert (C3 : count is_classified
                     (Started true :: Ran :: Classified (verdict_of (env a))
                        :: tail ++ [Stopped]) = 1).
      { rewrite count_handle; auto; now intros []. }
      assert (C4 : count is_stopped
                     (Started true :: Ran :: Classified (verdict_of (env a))
                        :: tail ++ [Stopped]) = 1).
      { rewrite count_handle; auto; now intros []. }
      assert (C5 : count acquired
                     (Started true :: Ran :: Classified (verdict_of (env a))
                        :: tail ++ [Stopped]) = 1).
      { rewrite count_handle; auto; now intros []. }
      destruct brk as [r|].
      * eexists _, _, _; split; [reflexivity|].
        rewrite C1, C2, C3, C4, C5; cbn [length].
        repeat split; try lia.
        intros ->; now destruct Hnr.
      * destruct (IH s1) as (r & s' & evs & El & L1 & L2 & L3 & L4 & L5).
        rewrite El; eexists _, _, _; split; [reflexivity|].
        rewrite !count_app, C1, C2, C3, C4, C5; cbn [length].
        repeat split; try lia.
        intros Hr; specialize (L5 Hr); lia.
    + rewrite (attempt_body_no_handle budget _ a s Hs).
      eexists _, _, _; split; [reflexivity|].
      unfold count; cbn; repeat split; try lia; discriminate.
Qed.

Lemma retry_loop_flag (env : nat -> attempt_env) (attempts : list nat) :
  Forall (fun a => a <= budget) attempts ->
  forall s r s' evs,
    retry_loop budget env attempts s = (r, s', evs) ->
    (all_tests_passed_overall s' = true ->
     all_tests_passed_overall s = true)
    /\ (attempts <> [] -> all_tests_passed_overall s' = true ->
        r = TestsPassed).
Proof.
  induction 1 as [|a rest Ha _ IH]; intros s r s' evs E.
  - injection E as <- <- <-; split; [auto | congruence].
  - cbn [retry_loop] in E.
    destruct (start_ok (env a)) eqn:Hs.
    + destruct (attempt_body_handle budget _ a s Hs)
        as (brk & s1 & tail & Eb & _ & _ & Hmono & Hpass & _).
      rewrite Eb in E; destruct brk as [r1|].
      * injection E as <- <- <-; split; [exact Hmono|].
        intros _ Ht; specialize (Hpass Ht Ha); congruence.
      * destruct (retry_loop budget env rest s1) as [[r2 s2] ev2] eqn:El.
        injection E as <- <- <-.
        destruct (IH _ _ _ _ El) as [Hm2 _].
        split; intros; [auto|].
        assert (Ht1 : all_tests_passed_overall s1 = true) by auto.
        specialize (Hpass Ht1 Ha); discriminate.
    + rewrite (attempt_body_no_handle budget _ a s Hs) in E.
      injection E as <- <- <-; split; discriminate.
Qed.

Lemma attempt_range_bound :
  Forall (fun a => a <= budget) (attempt_range budget).
Proof.
  apply Forall_forall; intros a Ha.
  apply in_seq in Ha; lia.
Qed.

Lemma attempt_range_length : length (attempt_range budget) = budget + 1.
Proof. apply length_seq. Qed.

Lemma refine_asset_flag (env : asset_env) (s s' : st) (r : loop_exit)
    (evs : list event) :
  refine_asset budget env s = (r, s', evs) ->
  (all_tests_passed_overall s' = true ->
   all_tests_passed_overall s = true /\ r = TestsPassed).
Proof.
  unfold refine_asset; intros E Ht.
  destruct (retry_loop_flag _ _ attempt_range_bound _ _ _ _ E) as [Hm Hp].
  split; [exact (Hm Ht)|].
  apply Hp; [|exact Ht].
  unfold attempt_range; rewrite Nat.add_1_r; discriminate.
Qed.

(** *** The loop over the assets *)

Lemma assets_loop_flag (assets : list asset_env) :
  forall s done done',
    assets_loop budget assets s done = Summary true done' ->
    all_tests_passed_overall s = true.
Proof.
  induction assets as [|env rest IH]; intros s done done' E.
  - cbn in E; now injection E as -> _.
  - cbn [assets_loop] in E.
    destruct (refine_asset budget env s) as [[r s1] evs] eqn:Er.
    assert (Ht : all_tests_passed_overall s1 = true).
    { destruct (all_tests_passed_overall s1) eqn:F; [reflexivity|].
      cbn [negb] in E; destruct (passed s1); [|discriminate].
      apply IH in E; congruence. }
    now apply (refine_asset_flag _ _ _ _ _ Er).
Qed.

Lemma assets_loop_all_passed (assets : list asset_env) :
  forall s done done',
    assets_loop budget assets s done = Summary true done' ->
    exists new,
      done' = done ++ new
      /\ length new = length assets
      /\ Forall (fun x => fst x = TestsPassed) new.
Proof.
  induction assets as [|env rest IH]; intros s done done' E.
  - cbn in E; injection E as _ <-.
    exists []; now rewrite app_nil_r.
  - pose proof (assets_loop_flag _ _ _ _ E) as Hs.
    cbn [assets_loop] in E.
    destruct (refine_asset budget env s) as [[r s1] evs] eqn:Er.
    assert (Hnext : assets_loop budget rest s1 (done ++ [(r, evs)])
                    = Summary true done').
    { destruct (all_tests_passed_overall s1); cbn [negb] in E;
        [exact E|].
      destruct (passed s1); [exact E | discriminate]. }
    pose proof (assets_loop_flag _ _ _ _ Hnext) as Ht.
    destruct (refine_asset_flag _ _ _ _ _ Er Ht) as [_ ->].
    destruct (IH _ _ _ Hnext) as (new & -> & Hlen & Hall).
    exists ((TestsPassed, evs) :: new); repeat split.
    + now rewrite <- app_assoc.
    + cbn [length]; now rewrite Hlen.
    + now constructor.
Qed.

(** A first asset whose mock does not start on the first attempt ends
    the whole phase: line 353 reads [passed] before any run bound it. *)
Lemma first_start_failure_crashes (env : asset_env)
    (rest : list asset_env) :
  start_ok (attempt_env_at env 0) = false ->
  phase_3 budget (env :: rest)
  = Crashed (UnboundLocalError "passed") [(StartFailed, [Started false])].
Proof.
  intros H; unfold phase_3, assets_loop, refine_asset, attempt_range.
  rewrite Nat.add_1_r; cbn [seq retry_loop].
  rewrite (attempt_body_no_handle budget _ 0 _ H); reflexivity.
Qed.

End LoopFacts.

(** *** Independence from the other locals *)

Lemma blind_ret {A} (a : A) : blind (ret a).
Proof. intros s1 s2 H; cbn; auto. Qed.

Lemma blind_bind {A C} (m : M A) (k : A -> M C) :
  blind m -> (forall a, blind (k a)) -> blind (bind m k).
Proof.
  intros Hm Hk s1 s2 H; unfold bind.
  specialize (Hm s1 s2 H).
  destruct (m s1) as [[c1 t1] e1], (m s2) as [[c2 t2] e2].
  cbn in Hm; destruct Hm as (-> & -> & Hv).
  destruct c2 as [a | r | x]; cbn; auto.
  specialize (Hk a t1 t2 Hv).
  destruct (k a t1) as [[c3 u1] f1], (k a t2) as [[c4 u2] f2].
  cbn in Hk; destruct Hk as (-> & -> & Hu); cbn; auto.
Qed.

Lemma blind_emit (e : event) : blind (emit e).
Proof. intros s1 s2 H; cbn; auto. Qed.

Lemma blind_throw {A} (x : exn) : blind (@throw A x).
Proof. intros s1 s2 H; cbn; auto. Qed.

Lemma blind_break {A} (r : loop_exit) : blind (@break A r).
Proof. intros s1 s2 H; cbn; auto. Qed.

Lemma blind_lift {A} (m : py A) : blind (lift m).
Proof. destruct m; [apply blind_ret | apply blind_throw]. Qed.

Lemma blind_modify (f : st -> st) :
  (forall s1 s2, view s1 = view s2 -> view (f s1) = view (f s2)) ->
  blind (modify f).
Proof. intros Hf s1 s2 H; cbn; auto. Qed.

Lemma blind_gets {A} (f : st -> A) :
  (forall s1 s2, view s1 = view s2 -> f s1 = f s2) -> blind (gets f).
Proof. intros Hf s1 s2 H; cbn; rewrite (Hf _ _ H); auto. Qed.

Ltac view_setter :=
  let s1 := fresh "s" in
  let s2 := fresh "s" in
  let H := fresh "H" in
  intros s1 s2 H; unfold view in *; cbn; congruence.

Lemma blind_build_prompt : blind build_prompt.
Proof.
  unfold build_prompt.
  apply blind_bind; [apply blind_gets; view_setter | intros mock_code].
  apply blind_bind; [apply blind_gets; view_setter | intros test_code].
  apply blind_bind; [destruct mock_code;
                     [apply blind_ret | apply blind_throw] | intros _].
  apply blind_bind; [destruct test_code;
                     [apply blind_ret | apply blind_throw] | intros _].
  apply blind_ret.
Qed.

Lemma blind_call (r : llm_reply) (mark : event) :
  blind (call_ollama_llm r mark).
Proof.
  unfold call_ollama_llm.
  apply blind_bind; [apply blind_emit | intros _].
  destruct r; [apply blind_ret | apply blind_throw].
Qed.

Lemma blind_apply_mock_update (fix_suggestion : str) :
  blind (apply_mock_update fix_suggestion).
Proof.
  unfold apply_mock_update.
  destruct (contains new_mock_code_marker fix_suggestion);
    [|apply blind_ret].
  apply blind_bind; [apply blind_lift | intros x].
  apply blind_bind.
  { destruct (contains new_test_code_marker x);
      [apply blind_lift | apply blind_ret]. }
  intros y; apply blind_bind.
  - apply blind_modify; view_setter.
  - intros _; apply blind_emit.
Qed.

Lemma blind_apply_test_update (fix_suggestion : str) :
  blind (apply_test_update fix_suggestion).
Proof.
  unfold apply_test_update.
  destruct (contains new_test_code_marker fix_suggestion);
    [|apply blind_ret].
  apply blind_bind; [apply blind_lift | intros x].
  apply blind_bind.
  { destruct (contains new_mock_code_marker x);
      [apply blind_lift | apply blind_ret]. }
  intros y; apply blind_bind.
  - apply blind_modify; view_setter.
  - intros _; apply blind_emit.
Qed.

Lemma blind_request_fix (e : attempt_env) : blind (request_fix e).
Proof.
  unfold request_fix, repair.
  apply blind_bind; [apply blind_modify; view_setter | intros _].
  apply blind_bind; [apply blind_build_prompt | intros _].
  apply blind_bind; [apply blind_call | intros reply].
  destruct (text_of reply) as [fix_suggestion|]; [|apply blind_break].
  apply blind_bind; [apply blind_apply_mock_update | intros _].
  apply blind_bind; [apply blind_apply_test_update | intros _].
  destruct (negb _); [apply blind_break | apply blind_ret].
Qed.

Lemma blind_on_pass (e : attempt_env) : blind (on_pass e).
Proof.
  unfold on_pass, edge_case_prompt.
  apply blind_bind; [|intros _].
  { apply blind_bind; [apply blind_build_prompt | intros _].
    apply blind_throw. }
  apply blind_bind; [apply blind_call | intros _].
  apply blind_break.
Qed.

Section Independence.
Variable budget : nat.

Lemma blind_try_block (e : attempt_env) (attempt : nat) :
  blind (try_block budget e attempt).
Proof.
  unfold try_block.
  apply blind_bind; [apply blind_emit | intros _].
  apply blind_bind; [apply blind_modify; view_setter | intros _].
  destruct (negb (start_ok e)).
  - apply blind_bind; [apply blind_modify; view_setter | intros _].
    apply blind_break.
  - apply blind_bind; [apply blind_emit | intros _].
    destruct (run_output e) as [[out err] rc].
    apply blind_bind; [apply blind_modify; view_setter | intros _].
    apply blind_bind; [apply blind_emit | intros _].
    unfold evaluate; apply blind_bind.
    + destruct (Classifier.check_passed rc err);
        [apply blind_on_pass | apply blind_ret].
    + intros _; destruct (_ && _); [apply blind_request_fix|].
      destruct (_ && _); [apply blind_modify; view_setter | apply blind_ret].
Qed.

Lemma attempt_body_blind (e : attempt_env) (attempt : nat) (s1 s2 : st) :
  codes s1 = codes s2 ->
  fst (fst (attempt_body budget e attempt s1))
  = fst (fst (attempt_body budget e attempt s2))
  /\ snd (attempt_body budget e attempt s1)
     = snd (attempt_body budget e attempt s2)
  /\ codes (snd (fst (attempt_body budget e attempt s1)))
     = codes (snd (fst (attempt_body budget e attempt s2))).
Proof.
  intros H; unfold attempt_body.
  assert (Hv : view (set_mock_process false s1)
               = view (set_mock_process false s2)).
  { unfold view, codes in *; cbn; congruence. }
  pose proof (blind_try_block e attempt _ _ Hv) as Hb.
  destruct (try_block budget e attempt (set_mock_process false s1))
    as [[c1 t1] e1].
  destruct (try_block budget e attempt (set_mock_process false s2))
    as [[c2 t2] e2].
  cbn in Hb; destruct Hb as (-> & -> & Ht).
  assert (Hm : mock_process t1 = mock_process t2)
    by (unfold view in Ht; congruence).
  assert (Hc : codes t1 = codes t2)
    by (unfold view, codes in *; congruence).
  destruct c2 as [a | r | x]; cbn [mock_process set_overall];
    rewrite Hm; destruct (mock_process t2); cbn; auto.
Qed.

Lemma retry_loop_blind (env : nat -> attempt_env) (attempts : list nat) :
  forall s1 s2,
    codes s1 = codes s2 ->
    fst (fst (retry_loop budget env attempts s1))
    = fst (fst (retry_loop budget env attempts s2))
    /\ snd (retry_loop budget env attempts s1)
       = snd (retry_loop budget env attempts s2).
Proof.
  induction attempts as [|a rest IH]; intros s1 s2 H; [cbn; auto|].
  cbn [retry_loop].
  pose proof (attempt_body_blind (env a) a _ _ H) as Hb.
  destruct (attempt_body budget (env a) a s1) as [[b1 t1] e1].
  destruct (attempt_body budget (env a) a s2) as [[b2 t2] e2].
  cbn in Hb; destruct Hb as (-> & -> & Hc).
  destruct b2 as [r|]; [cbn; auto|].
  specialize (IH _ _ Hc).
  destruct (retry_loop budget env rest t1) as [[r1 u1] f1].
  destruct (retry_loop budget env rest t2) as [[r2 u2] f2].
  cbn in IH; destruct IH as (-> & ->); cbn; auto.
Qed.

(** The retry loop of an asset does not depend on the locals left by
    the assets before it. *)
Lemma refine_asset_alone (env : asset_env) (s : st) :
  (fst (fst (refine_asset budget env s)), snd (refine_asset budget env s))
  = alone budget env.
Proof.
  unfold alone, refine_asset.
  pose proof (retry_loop_blind (attempt_env_at env) (attempt_range budget)
                (set_test_code (test_content env)
                   (set_mock_code (mock_content env) s))
                (set_test_code (test_content env)
                   (set_mock_code (mock_content env) initial))
                eq_refl) as [H1 H2].
  destruct (retry_loop budget _ _ (set_test_code _ (set_mock_code _ s)))
    as [[r1 u1] f1].
  destruct (retry_loop budget _ _ (set_test_code _ (set_mock_code _ initial)))
    as [[r2 u2] f2].
  cbn in *; congruence.
Qed.

Lemma assets_loop_independent (assets : list asset_env) :
  forall s done,
    match assets_loop budget assets s done with
    | Summary _ done' => done' = done ++ map (alone budget) assets
    | Crashed _ done' =>
        exists k, k < length assets
                  /\ done' = done ++ map (alone budget) (firstn (S k) assets)
    | NothingToDo => False
    end.
Proof.
  induction assets as [|env rest IH]; intros s done.
  - cbn; now rewrite app_nil_r.
  - cbn [assets_loop].
    pose proof (refine_asset_alone env s) as Ha.
    destruct (refine_asset budget env s) as [[r s1] evs].
    cbn in Ha.
    assert (Hstep :
              match assets_loop budget rest s1 (done ++ [(r, evs)]) with
              | Summary _ done' =>
                  done' = done ++ map (alone budget) (env :: rest)
              | Crashed _ done' =>
                  exists k, k < length (env :: rest)
                            /\ done' = done ++ map (alone budget)
                                                 (firstn (S k) (env :: rest))
              | NothingToDo => False
              end).
    { specialize (IH s1 (done ++ [(r, evs)])).
      destruct (assets_loop budget rest s1 (done ++ [(r, evs)]))
        as [|b done'|x done'].
      - exact IH.
      - rewrite IH, <- app_assoc; cbn [map app]; now rewrite Ha.
      - destruct IH as (k & Hk & ->); exists (S k); split; [cbn; lia|].
        rewrite <- app_assoc; cbn [map app firstn]; now rewrite Ha. }
    destruct (all_tests_passed_overall s1); cbn [negb]; [exact Hstep|].
    destruct (passed s1); [exact Hstep|].
    exists 0; split; [cbn; lia|].
    cbn [firstn map]; now rewrite Ha.
Qed.

End Independence.

(** What holds of C1 on the code: a phase that gets to its summary has
    taken every asset through its retry loop, each exactly as if it were
    the only asset; a phase that raises has done so for the assets up to
    the one after whose loop it raised. *)
Lemma assets_processed_independently (budget : nat)
    (assets : list asset_env) :
  match phase_3 budget assets with
  | Summary _ done => done = map (alone budget) assets
  | Crashed _ done =>
      exists k, k < length assets
                /\ done = map (alone budget) (firstn (S k) assets)
  | NothingToDo => assets = []
  end.
Proof.
  unfold phase_3; destruct assets as [|env rest]; [reflexivity|].
  pose proof (assets_loop_independent budget (env :: rest) initial []) as H.
  destruct (assets_loop budget (env :: rest) initial []);
    [destruct H | exact H | exact H].
Qed.

(** *** The claims on the refinement phase *)

Import Scenarios.

(** C3.  For every retry budget, every asset and every behaviour of its
    surroundings, the retry loop of the asset returns; it starts the
    mock at most budget + 1 times and runs and checks the tests at most
    as often; it ends as Passed, Exhausted or Aborted, and as Exhausted
    only after exactly budget + 1 attempts.  With the configured budget
    that is at most 4 attempts. *)
Theorem refinement_bounded :
  (forall budget env s,
      exists r s' evs,
        refine_asset budget env s = (r, s', evs)
        /\ count is_started evs <= budget + 1
        /\ count is_ran evs <= budget + 1
        /\ count is_classified evs <= budget + 1
        /\ ((terminal_of r = Exhausted
             /\ count is_started evs = budget + 1)
            \/ terminal_of r = Passed
            \/ terminal_of r = Aborted))
  /\ MAX_REFINEMENT_RETRIES + 1 = 4.
Proof.
  split; [|reflexivity].
  intros budget env s; unfold refine_asset.
  destruct (retry_loop_counts budget (attempt_env_at env)
              (attempt_range budget)
              (set_test_code (test_content env)
                 (set_mock_code (mock_content env) s)))
    as (r & s' & evs & E & L1 & L2 & L3 & _ & L5).
  rewrite attempt_range_length in L1, L5.
  exists r, s', evs; repeat split; try assumption; try lia.
  destruct r; cbn [terminal_of]; auto.
Qed.

(** C4, as the code has it.  In every attempt the events come in this
    order: the start of the mock; then, when a handle was obtained, the
    test run, the pass/fail check, the edge-case or repair steps, and
    last of all the stop of the mock, exactly once, whichever way the
    attempt ends, an exception included.  The stop follows the check; it
    does not precede it.  Without a handle there is nothing to stop. *)
Theorem handle_released_last :
  forall budget e attempt s,
    exists brk s' tail,
      quiet tail
      /\ ((start_ok e = true
           /\ attempt_body budget e attempt s
              = (brk, s',
                 Started true :: Ran :: Classified (verdict_of e)
                   :: tail ++ [Stopped]))
          \/ (start_ok e = false
              /\ attempt_body budget e attempt s
                 = (brk, s', [Started false]))).
Proof.
  intros budget e attempt s; destruct (start_ok e) eqn:Hs.
  - destruct (attempt_body_handle budget e attempt s Hs)
      as (brk & s' & tail & E & Hq & _).
    exists brk, s', tail; split; [exact Hq | left; now split].
  - eexists _, _, []; split; [constructor | right; split; [reflexivity|]].
    apply attempt_body_no_handle; exact Hs.
Qed.

(** C4 as stated fails: in a first attempt whose run fails and whose
    mock is then replaced, the check is the third event and the stop the
    sixth and last. *)
Lemma stop_follows_check :
  snd (attempt_body MAX_REFINEMENT_RETRIES
         (attempt_env_at fails_then_passes 0) 0 (loaded fails_then_passes))
  = [Started true; Ran; Classified false; AskedFix; SavedMock "x = 1";
     Stopped]
  /\ ~ (forall e attempt s i j,
           let evs := snd (attempt_body MAX_REFINEMENT_RETRIES e attempt s) in
           position is_stopped evs = Some i ->
           position is_classified evs = Some j ->
           i < j).
Proof.
  split; [reflexivity|].
  intros H.
  specialize (H (attempt_env_at fails_then_passes 0) 0
                (loaded fails_then_passes) 5 2 eq_refl eq_refl).
  lia.
Qed.

(** Four failed attempts use up the configured budget. *)
Example exhausted_after_four :
  fst (alone MAX_REFINEMENT_RETRIES never_passes) = RangeDone
  /\ count is_started (snd (alone MAX_REFINEMENT_RETRIES never_passes)) = 4
  /\ count is_stopped (snd (alone MAX_REFINEMENT_RETRIES never_passes)) = 4
  /\ count is_saved_test (snd (alone MAX_REFINEMENT_RETRIES never_passes))
     = 3.
Proof. repeat split; reflexivity. Qed.

(** A reply without a marker ends the retries at once, and the next
    asset is taken up. *)
Example no_marker_aborts :
  alone MAX_REFINEMENT_RETRIES unusable_fix
  = (NoMarkers, [Started true; Ran; Classified false; AskedFix; Stopped])
  /\ phase_3_iterative_testing [unusable_fix; passes_at_once]
     = Summary false
         [(NoMarkers,
           [Started true; Ran; Classified false; AskedFix; Stopped]);
          (Unexpected,
           [Started true; Ran; Classified true; Stopped])].
Proof. split; reflexivity. Qed.

(** The stop on the way out of an exception: one let through by the
    backend call, and the one of the edge-case prompt. *)
Example stop_on_exception :
  alone MAX_REFINEMENT_RETRIES backend_faults
  = (Unexpected,
     [Started true; Ran; Classified false; AskedFix; Stopped])
  /\ alone MAX_REFINEMENT_RETRIES passes_at_once
     = (Unexpected, [Started true; Ran; Classified true; Stopped]).
Proof. split; reflexivity. Qed.

(** C1 fails on the code.  Two assets, the mock of the first does not
    start: the phase raises after the first asset's loop, and the second
    asset is never started, though on its own it is started, run,
    checked and stopped, and the phase goes on to its summary.  The same
    start failure with a single asset raises as well. *)
Theorem later_asset_not_processed :
  phase_3_iterative_testing [start_fails; passes_at_once]
  = Crashed (UnboundLocalError "passed") [(StartFailed, [Started false])]
  /\ phase_3_iterative_testing [passes_at_once]
     = Summary false
         [(Unexpected, [Started true; Ran; Classified true; Stopped])]
  /\ phase_3_iterative_testing [start_fails]
     = Crashed (UnboundLocalError "passed") [(StartFailed, [Started false])].
Proof. repeat split; reflexivity. Qed.

(** The summary flag is up only if every asset passed. *)
Lemma summary_true_all_passed (budget : nat) (assets : list asset_env)
    (done : log) :
  phase_3 budget assets = Summary true done ->
  length done = length assets
  /\ Forall (fun x => terminal_of (fst x) = Passed) done.
Proof.
  unfold phase_3; destruct assets as [|env rest]; [discriminate|].
  intros E.
  destruct (assets_loop_all_passed _ _ _ _ _ E) as (new & -> & Hl & Ha).
  split; [exact Hl|].
  eapply Forall_impl; [|exact Ha].
  now intros x ->.
Qed.

(** C7 fails on the code.  One asset whose first run fails, whose mock
    is then replaced by the backend and whose second run passes.  The
    first attempt leaves the summary flag down (line 296) and the loop
    going; the second attempt finds the tests passed, cannot build the
    edge-case prompt and ends in the exception handler; the summary flag
    is down.  An asset whose tests pass at the first run is reported as
    failed too. *)
Theorem fixed_asset_reported_failed :
  (let '(brk, s, evs) :=
     attempt_body MAX_REFINEMENT_RETRIES
       (attempt_env_at fails_then_passes 0) 0 (loaded fails_then_passes) in
   (brk, all_tests_passed_overall s, evs))
  = (None, false,
     [Started true; Ran; Classified false; AskedFix; SavedMock "x = 1";
      Stopped])
  /\ phase_3_iterative_testing [fails_then_passes]
     = Summary false
         [(Unexpected,
           [Started true; Ran; Classified false; AskedFix;
            SavedMock "x = 1"; Stopped;
            Started true; Ran; Classified true; Stopped])]
  /\ phase_3_iterative_testing [passes_at_once]
     = Summary false
         [(Unexpected, [Started true; Ran; Classified true; Stopped])].
Proof. repeat split; reflexivity. Qed.

End RefineFacts.

(* ================================================================== *)
(** * Further properties *)

(** ** White space, parts of a text *)

Section MoreStringFacts.

Lemma lstrip_shape (s : str) :
  lstrip s = [] \/ exists c t, lstrip s = c :: t /\ isspace c = false.
Proof.
  induction s as [|a s IH]; simpl; [now left|].
  destruct (isspace a) eqn:Ha; [exact IH|].
  right; now exists a, s.
Qed.

Lemma rstrip_cons (c : ascii) (t : str) :
  isspace c = false -> rstrip (c :: t) = c :: rstrip t.
Proof.
  intros Hc; unfold rstrip; cbn [rev].
  rewrite (lstrip_app (rev t) [] c Hc), rev_app_distr; reflexivity.
Qed.

Lemma rstrip_idem (s : str) : rstrip (rstrip s) = rstrip s.
Proof. unfold rstrip; now rewrite rev_involutive, lstrip_idem. Qed.

Lemma strip_idem (s : str) : strip (strip s) = strip s.
Proof.
  unfold strip; destruct (lstrip_shape s) as [-> | (c & t & -> & Hc)];
    [reflexivity|].
  rewrite (rstrip_cons _ _ Hc); cbn [lstrip]; rewrite Hc.
  now rewrite (rstrip_cons _ _ Hc), rstrip_idem.
Qed.

Lemma occurs_in_refl (s : str) : occurs_in s s.
Proof. exists [], []; now rewrite app_nil_r. Qed.

Lemma occurs_in_trans (a b c : str) :
  occurs_in a b -> occurs_in b c -> occurs_in a c.
Proof.
  intros (p1 & q1 & ->) (p2 & q2 & ->).
  exists (p2 ++ p1), (q1 ++ q2); now rewrite <- !app_assoc.
Qed.

Lemma occurs_in_length (a b : str) : occurs_in a b -> length a <= length b.
Proof. intros (p & q & ->); rewrite !length_app; lia. Qed.

Lemma occurs_in_skipn (n : nat) (s : str) : occurs_in (skipn n s) s.
Proof.
  exists (firstn n s), []; now rewrite app_nil_r, firstn_skipn.
Qed.

Lemma occurs_in_firstn (n : nat) (s : str) : occurs_in (firstn n s) s.
Proof. exists [], (skipn n s); cbn; now rewrite firstn_skipn. Qed.

Lemma lstrip_suffix (s : str) : exists p, s = p ++ lstrip s.
Proof.
  induction s as [|a s [p IH]]; simpl; [now exists []|].
  destruct (isspace a); [|now exists []].
  exists (a :: p); cbn; now rewrite <- IH.
Qed.

Lemma occurs_in_lstrip (s : str) : occurs_in (lstrip s) s.
Proof.
  destruct (lstrip_suffix s) as [p E].
  exists p, []; now rewrite app_nil_r.
Qed.

Lemma occurs_in_rstrip (s : str) : occurs_in (rstrip s) s.
Proof.
  unfold rstrip; destruct (lstrip_suffix (rev s)) as [p E].
  exists [], (rev p); cbn.
  rewrite <- rev_app_distr, <- E; now rewrite rev_involutive.
Qed.

Lemma occurs_in_strip (s : str) : occurs_in (strip s) s.
Proof.
  unfold strip; eapply occurs_in_trans;
    [apply occurs_in_rstrip | apply occurs_in_lstrip].
Qed.

End MoreStringFacts.

(** ** The text handed back by the backend call *)

Section MoreFenceFacts.
Import Fences.

Lemma clean_code_block_of_stripped (text : str) :
  (exists y, text = strip y) -> exists z, clean_code_block text = strip z.
Proof.
  intros [y ->]; unfold clean_code_block.
  destruct (startswith python_fence (strip y)); [|destruct (startswith fence (strip y))].
  all: match goal with
       | |- exists z, (if endswith fence ?t then _ else _) = _ =>
           destruct (endswith fence t); eauto
       end.
Qed.

(** X1.  The text [call_ollama_llm] returns for a decoded response has
    no white space at either end: stripping it again changes nothing. *)
Theorem generated_text_stripped :
  forall response, strip (generated_text response) = generated_text response.
Proof.
  intros response; unfold generated_text.
  destruct (clean_code_block_of_stripped (strip response)) as [z ->];
    [now exists response | apply strip_idem].
Qed.

(** X2.  The clean-up only removes: its result is one contiguous part
    of the text it was given, so it is never longer and never contains
    a character sequence the backend did not send. *)
Theorem clean_code_block_part_of_input :
  forall text,
    occurs_in (clean_code_block text) text
    /\ length (clean_code_block text) <= length text.
Proof.
  intros text.
  assert (H : occurs_in (clean_code_block text) text).
  { unfold clean_code_block.
    set (t1 := if startswith python_fence text
               then strip (drop_front (length python_fence) text)
               else if startswith fence text
                    then strip (drop_front (length fence) text)
                    else text).
    assert (H1 : occurs_in t1 text).
    { unfold t1, drop_front.
      destruct (startswith python_fence text);
        [|destruct (startswith fence text)].
      - eapply occurs_in_trans;
          [apply occurs_in_strip | apply occurs_in_skipn].
      - eapply occurs_in_trans;
          [apply occurs_in_strip | apply occurs_in_skipn].
      - apply occurs_in_refl. }
    destruct (endswith fence t1); [|exact H1].
    eapply occurs_in_trans; [apply occurs_in_strip|].
    eapply occurs_in_trans; [apply occurs_in_firstn | exact H1]. }
  split; [exact H | now apply occurs_in_length].
Qed.

(** X3.  A reply that opens with a fence and is cut off before its
    closing fence still loses the opening fence: what remains of
    "```python" + body, or of a bare "```" + body, is the trimmed body,
    as long as the trimmed body does not itself end in a fence. *)
Theorem clean_code_block_open_fence_only :
  forall body,
    endswith fence (strip body) = false ->
    clean_code_block (python_fence ++ body) = strip body
    /\ (startswith python_fence (fence ++ body) = false ->
        clean_code_block (fence ++ body) = strip body).
Proof.
  intros body He; split.
  - unfold clean_code_block.
    now rewrite startswith_app, drop_front_app, He.
  - intros Hp; unfold clean_code_block.
    now rewrite Hp, startswith_app, drop_front_app, He.
Qed.

Lemma clean_code_block_open_fence_only_witness :
  endswith fence (strip "
print(1)") = false
  /\ clean_code_block (python_fence ++ "
print(1)") = "print(1)"
  /\ clean_code_block (fence ++ "
print(1)") = "print(1)".
Proof.
  split; [reflexivity|].
  destruct (clean_code_block_open_fence_only "
print(1)" eq_refl) as [H1 H2].
  split; [exact H1 | exact (H2 eq_refl)].
Defined.

End MoreFenceFacts.

(** ** A test run that could not be completed *)

Section MoreRunnerFacts.
Import Runner Classifier.

(** X4.  When the test script cannot be run to completion (time-out,
    interpreter or script not found, any other exception of the call),
    the runner reports an empty stdout and the exit code 1, and phase 3
    never takes such a run for a pass, whatever the error message
    says. *)
Theorem failed_run_never_passes :
  forall script_path timeout e,
    exists err,
      run_script_and_get_output script_path timeout (Raise e)
      = Ret ([], err, 1%Z)
      /\ check_passed 1 err = false
      /\ classify 1 err = Fail.
Proof.
  intros script_path timeout e.
  assert (H : forall err, check_passed 1 err = false).
  { intros err; unfold check_passed; cbn [Z.eqb andb].
    now destruct (contains "FAIL" err || contains "ERROR" err). }
  assert (H' : forall err, classify 1 err = Fail)
    by (intros err; unfold classify; now rewrite H).
  destruct e; cbn; eexists; (split; [reflexivity | split; [apply H | apply H']]).
Qed.

End MoreRunnerFacts.

(** ** The parsed services *)

Section MoreCatalogFacts.
Import Catalog CatalogSpec CatalogShape Identify.

Lemma parse_state_shape (lines : list str) :
  exists svcs cur,
    parse_lines_from ([], empty_dict) lines = Ret (svcs, cur)
    /\ ((svcs = [] /\ cur = empty_dict /\ record_blocks lines = [])
        \/ (truthy cur = true
            /\ svcs ++ [cur]
               = map descriptor_of_block (record_blocks lines))).
Proof.
  induction lines as [|l t IH].
  - exists [], empty_dict; split; [reflexivity | now left].
  - cbn [parse_lines_from record_blocks].
    destruct (is_name_line l) eqn:Hl.
    + rewrite (parse_line_name _ _ _ Hl); cbn [py_bind truthy empty_dict
        name port functionality].
      destruct (parse_from_buffered t [] (new_service (strip (skipn 13 l)))
                  eq_refl) as (svcs' & cur' & E & Ht & Hs).
      exists svcs', cur'; split; [exact E | right; split; [exact Ht|]].
      exact Hs.
    + rewrite (parse_line_skip [] empty_dict _ Hl eq_refl); exact IH.
Qed.

Lemma name_apply_fields (body : list str) :
  forall d, name (fold_left apply_field body d) = name d.
Proof.
  induction body as [|l t IH]; intros d; [reflexivity|].
  cbn [fold_left]; rewrite IH; unfold apply_field.
  destruct (startswith "Port:" l); [reflexivity|].
  now destruct (startswith "Functionality Summary:" l).
Qed.

Lemma descriptor_name (b : str * list str) :
  name (descriptor_of_block b) = Some (strip (skipn 13 (fst b))).
Proof. unfold descriptor_of_block; now rewrite name_apply_fields. Qed.

Lemma without_unported_last_incl (l : list service) (d : service) :
  In d (without_unported_last l) -> In d l.
Proof.
  unfold without_unported_last; intros H.
  apply in_rev; destruct (rev l) as [|x r]; [destruct H|].
  apply in_app_or in H as [H | H].
  - right; now apply in_rev.
  - destruct (has_port x); [|destruct H].
    destruct H as [<- | []]; now left.
Qed.

Lemma without_unported_last_length (l : list service) :
  length l - 1 <= length (without_unported_last l) <= length l.
Proof.
  unfold without_unported_last.
  rewrite <- (length_rev l); destruct (rev l) as [|x r]; cbn; [lia|].
  rewrite length_app, length_rev; destruct (has_port x); cbn; lia.
Qed.

Lemma record_blocks_length (lines : list str) :
  length (record_blocks lines) = length (filter is_name_line lines).
Proof.
  induction lines as [|l t IH]; [reflexivity|].
  cbn [record_blocks filter].
  destruct (is_name_line l); cbn [length]; congruence.
Qed.

Lemma parse_services_blocks (text : str) :
  parse_services text
  = Ret (without_unported_last
           (map descriptor_of_block (record_blocks (splitlines text)))).
Proof.
  unfold parse_services, parse_lines.
  destruct (parse_state_shape (splitlines text))
    as (svcs & cur & E & [(-> & -> & Hb) | (Ht & Hs)]);
    rewrite E; cbn [py_bind].
  - now rewrite Hb.
  - rewrite <- Hs.
    unfold finish, last_is_kept, without_unported_last, has_port.
    rewrite rev_app_distr; cbn [rev app]; rewrite rev_involutive, Ht.
    cbn [andb]; destruct (port cur) as [[z|]|];
      [reflexivity | now rewrite app_nil_r | now rewrite app_nil_r].
Qed.

(** X5.  The list of parsed services, before any filtering, holds one
    record for every name line of the text, in the order of the text,
    except that the record of the last name line is left out when it
    has no parsed port.  A record in the middle of the text is listed
    even without a port.  So a text with n name lines gives n or n - 1
    parsed services, and a text without a name line gives none. *)
Theorem parse_services_shape :
  forall text,
    let blocks := record_blocks (splitlines text) in
    exists services,
      parse_services text = Ret services
      /\ services
         = without_unported_last (map descriptor_of_block blocks)
      /\ length (filter is_name_line (splitlines text)) - 1
         <= length services
         <= length (filter is_name_line (splitlines text)).
Proof.
  intros text blocks; eexists; split; [apply parse_services_blocks|].
  split; [reflexivity|].
  rewrite <- record_blocks_length.
  rewrite <- (length_map descriptor_of_block
                (record_blocks (splitlines text))).
  apply without_unported_last_length.
Qed.

(** X6.  Every parsed service has a name, and the name has no white
    space at either end; the fallback name of line 148 is therefore
    never taken. *)
Theorem parsed_services_named :
  forall text,
    exists services,
      parse_services text = Ret services
      /\ Forall (fun d => exists n, name d = Some n /\ strip n = n)
           services.
Proof.
  intros text; eexists; split; [apply parse_services_blocks|].
  apply Forall_forall; intros d Hd.
  apply without_unported_last_incl, in_map_iff in Hd as (b & <- & _).
  rewrite descriptor_name; eexists; split; [reflexivity|].
  apply strip_idem.
Qed.

Lemma lower_app (a b : str) : lower (a ++ b) = lower a ++ lower b.
Proof. apply map_app. Qed.

(** X7.  Phase 2 stops with no services when the backend call failed or
    returned an empty text, and when the reply contains the phrase
    "no clear services can be identified" in any mix of capitals and
    small letters, even if the reply also lists well-formed records. *)
Theorem refusal_in_any_case :
  identified_services None = Ret []
  /\ identified_services (Some []) = Ret []
  /\ (forall pre phrase post,
         lower phrase = refusal ->
         identified_services (Some (pre ++ phrase ++ post)) = Ret []).
Proof.
  split; [reflexivity | split; [reflexivity|]].
  intros pre phrase post Hl; unfold identified_services.
  assert (Hne : exists c t, pre ++ phrase ++ post = c :: t).
  { destruct phrase as [|c t]; [discriminate Hl|].
    destruct pre as [|c' t']; cbn; eauto. }
  destruct Hne as (c & t & E).
  unfold Refine.text_of; rewrite E, <- E.
  rewrite !lower_app, Hl, contains_middle; reflexivity.
Qed.

Lemma refusal_in_any_case_witness :
  lower "No Clear Services CAN be identified" = refusal
  /\ identified_services
       (Some ("Service Name: A
Port: 5005
" ++ "No Clear Services CAN be identified" ++ "."))
     = Ret [].
Proof.
  split; [reflexivity|].
  apply (proj2 (proj2 refusal_in_any_case)); reflexivity.
Defined.

End MoreCatalogFacts.

(** ** Which files are scanned *)

Section ScanFacts.
Import Scan.

Lemma endswith_refl (s : str) : endswith s s = true.
Proof.
  unfold endswith; rewrite <- (app_nil_r (rev s)) at 2.
  apply startswith_app.
Qed.

Lemma endswith_iff (p s : str) :
  endswith p s = true <-> exists t, s = t ++ p.
Proof.
  unfold endswith; rewrite startswith_iff; split.
  - intros [t E]; exists (rev t).
    rewrite <- (rev_involutive s), E, rev_app_distr.
    now rewrite rev_involutive.
  - intros [t ->]; exists (rev t); apply rev_app_distr.
Qed.

Lemma endswith_trans (a b c : str) :
  endswith a b = true -> endswith b c = true -> endswith a c = true.
Proof.
  rewrite !endswith_iff; intros [t ->] [u ->].
  exists (u ++ t); now rewrite app_assoc.
Qed.

Lemma str_eqb_eq (a b : str) : str_eqb a b = true <-> a = b.
Proof.
  unfold str_eqb; destruct (list_eq_dec ascii_dec a b);
    split; congruence.
Qed.

Lemma mem_In (x : str) (l : list str) : mem x l = true <-> In x l.
Proof.
  unfold mem; rewrite existsb_exists; split.
  - intros (y & Hy & E); apply str_eqb_eq in E; now subst.
  - intros H; exists x; split; [exact H | now apply str_eqb_eq].
Qed.

Lemma selected_inner (extensions : list str) (file : str) :
  selected extensions file
  = mem file extensions
    || existsb (fun ext => endswith ext file)
         (filter (fun ext => startswith "." ext) extensions).
Proof.
  unfold selected.
  destruct (ends_with_any extensions file
            || match extensions with [] => true | _ => false end) eqn:Ho;
    [reflexivity|].
  apply orb_false_iff in Ho as [Ha _]; symmetry; apply orb_false_iff.
  unfold ends_with_any in Ha; split.
  - destruct (mem file extensions) eqn:Hm; [|reflexivity].
    apply mem_In in Hm; rewrite <- Ha; symmetry.
    apply existsb_exists; exists file; split;
      [exact Hm | apply endswith_refl].
  - destruct (existsb _ (filter _ extensions)) eqn:Hx; [|reflexivity].
    apply existsb_exists in Hx as (ext & Hin & He).
    apply filter_In in Hin as [Hin _]; rewrite <- Ha; symmetry.
    apply existsb_exists; now exists ext.
Qed.

Lemma selected_spec (extensions : list str) (file : str) :
  selected extensions file = true <->
  In file extensions
  \/ exists ext,
      In ext extensions /\ startswith "." ext = true
      /\ endswith ext file = true.
Proof.
  rewrite selected_inner, orb_true_iff, mem_In, existsb_exists.
  split; (intros [H | H]; [now left | right]).
  - destruct H as (ext & Hin & He).
    apply filter_In in Hin as [Hin Hs]; eauto.
  - destruct H as (ext & Hin & Hs & He); exists ext; split; [|exact He].
    apply filter_In; now split.
Qed.

(** X8.  A file name is taken by [scan_files] exactly when it is one of
    the entries of the extension list, or ends in an entry that begins
    with a dot; the outer test of line 58 adds nothing to that.  An
    entry without a leading dot is matched as a whole name only, and
    with an empty extension list [scan_files] returns no file at
    all. *)
Theorem selected_iff :
  (forall extensions file,
      selected extensions file = true <->
      In file extensions
      \/ exists ext,
          In ext extensions /\ startswith "." ext = true
          /\ endswith ext file = true)
  /\ (forall walk, scan_files walk (Some []) = []).
Proof.
  split; [apply selected_spec|].
  induction walk as [|[root files] rest IH]; [reflexivity|].
  unfold scan_files in *; cbn [flat_map]; rewrite IH, app_nil_r.
  destruct (mem ".git" (split_char sep root)); [reflexivity|].
  assert (H : filter (selected []) files = []).
  { induction files as [|f fs IHf]; [reflexivity | exact IHf]. }
  now rewrite H.
Qed.

(** X9.  On a regular file with no component named ".git", the test
    of the packaged copy of [scan_files] accepts every name the
    top-level test accepts, and more: it also matches an entry without
    a leading dot as an ending, so "myDockerfile" is taken by the one
    and not by the other.  Unlike the top-level test it takes nothing
    that is not a regular file, and nothing whose own name is ".git". *)
Theorem packaged_scan_takes_more :
  (forall extensions p,
      is_file p = true ->
      mem ".git" (parts p) = false ->
      endswith (name p) (as_str p) = true ->
      selected extensions (name p) = true ->
      selected_packaged extensions p = true)
  /\ (scan_files_packaged [regular "repo" "docker" "myDockerfile"] None
      = ["repo/docker/myDockerfile" : str]
      /\ scan_files [("repo/docker" : str, ["myDockerfile" : str])] None
         = [])
  /\ (scan_files [("repo/docs" : str, ["notes.md" : str])] None
      = ["repo/docs/notes.md" : str]
      /\ scan_files_packaged
           [{| as_str := "repo/docs/notes.md";
               parts := ["repo" : str; "docs" : str; "notes.md" : str];
               name := "notes.md"; is_file := false |}] None
         = [])
  /\ (scan_files [("repo/sub" : str, [".git" : str])]
        (Some [".git" : str])
      = ["repo/sub/.git" : str]
      /\ scan_files_packaged [regular "repo" "sub" ".git"]
           (Some [".git" : str])
         = []).
Proof.
  split; [|repeat split; reflexivity].
  intros extensions p Hf Hg Hp Hs; unfold selected_packaged.
  rewrite Hg, Hf.
  apply selected_spec in Hs as [Hin | (ext & Hin & _ & He)].
  - apply mem_In in Hin; rewrite Hin; apply orb_true_r.
  - apply orb_true_iff; left; unfold ends_with_any.
    apply existsb_exists; exists ext; split; [exact Hin|].
    eapply endswith_trans; eassumption.
Qed.

Lemma packaged_scan_takes_more_witness :
  is_file (regular "repo" "docs" "notes.md") = true
  /\ mem ".git" (parts (regular "repo" "docs" "notes.md")) = false
  /\ endswith (name (regular "repo" "docs" "notes.md"))
       (as_str (regular "repo" "docs" "notes.md")) = true
  /\ selected default_extensions (name (regular "repo" "docs" "notes.md"))
     = true
  /\ selected_packaged default_extensions
       (regular "repo" "docs" "notes.md") = true.
Proof.
  do 4 (split; [reflexivity|]).
  apply (proj1 packaged_scan_takes_more); reflexivity.
Defined.

End ScanFacts.

(** ** The name of the checkout *)

Section CloneFacts.
Import Clone.

Lemma split_char_nonempty (c : ascii) (s : str) : split_char c s <> [].
Proof.
  induction s as [|a s IH]; cbn; [discriminate|].
  destruct (Ascii.eqb a c); [discriminate|].
  destruct (split_char c s); discriminate.
Qed.

Lemma split_char_no_sep (c : ascii) (s : str) :
  Forall (fun w => ~ In c w) (split_char c s).
Proof.
  induction s as [|a s IH]; cbn; [repeat constructor; auto|].
  destruct (Ascii.eqb_spec a c) as [-> | Hne].
  - constructor; auto.
  - destruct (split_char c s) as [|w ws]; [repeat constructor|].
    + intros [E | []]; congruence.
    + inversion IH as [|? ? Hw Hws]; subst; constructor; [|exact Hws].
      intros [E | Hin]; [congruence | now apply Hw].
Qed.

Lemma last_item_In (l : list str) :
  l <> [] -> exists x, last_item l = Ret x /\ In x l.
Proof.
  intros Hl; unfold last_item.
  destruct (rev l) as [|x r] eqn:E.
  - apply (f_equal (@rev str)) in E; rewrite rev_involutive in E.
    now destruct Hl.
  - exists x; split; [reflexivity|].
    apply in_rev; rewrite E; now left.
Qed.

Lemma last_item_cons (x : str) (l : list str) :
  l <> [] -> last_item (x :: l) = last_item l.
Proof.
  intros Hl; unfold last_item; cbn [rev].
  destruct (rev l) as [|y r] eqn:E; [|reflexivity].
  apply (f_equal (@rev str)) in E; rewrite rev_involutive in E.
  now destruct Hl.
Qed.

Lemma split_char_whole (c : ascii) (s : str) :
  ~ In c s -> split_char c s = [s].
Proof.
  induction s as [|a s IH]; intros H; [reflexivity|]; cbn.
  destruct (Ascii.eqb_spec a c) as [-> | Hne]; [destruct H; now left|].
  rewrite IH; [reflexivity | intros Hin; apply H; now right].
Qed.

Lemma split_char_app (c : ascii) (prefix name : str) :
  ~ In c name ->
  split_char c (prefix ++ c :: name) = split_char c prefix ++ [name].
Proof.
  intros Hn; induction prefix as [|a p IH]; cbn [app split_char].
  - now rewrite Ascii.eqb_refl, split_char_whole.
  - rewrite IH; destruct (Ascii.eqb a c); [reflexivity|].
    destruct (split_char c p) as [|w ws] eqn:E; [|reflexivity].
    now destruct (split_char_nonempty c p).
Qed.

Lemma last_item_snoc (l : list str) (x : str) : last_item (l ++ [x]) = Ret x.
Proof. unfold last_item; now rewrite rev_app_distr. Qed.

Lemma replace_from_In (old new : str) (c : ascii) (s : str) :
  forall skip, In c (replace_from old new skip s) -> In c s \/ In c new.
Proof.
  induction s as [|a s IH]; intros skip H; [destruct H|].
  cbn [replace_from] in H; destruct skip as [|k].
  - destruct (startswith old (a :: s)).
    + apply in_app_or in H as [H | H]; [now right|].
      destruct (IH _ H); [left; now right | now right].
    + destruct H as [-> | H]; [left; now left|].
      destruct (IH _ H); [left; now right | now right].
  - destruct (IH _ H); [left; now right | now right].
Qed.

Lemma replace_git_suffix (name : str) :
  ~ In "."%char name -> replace ".git" [] (name ++ ".git") = name.
Proof.
  unfold replace; induction name as [|a n IH]; intros H; [reflexivity|].
  cbn [app replace_from].
  assert (Ha : Ascii.eqb "." a = false).
  { apply Ascii.eqb_neq; intros <-; apply H; now left. }
  cbn [startswith list_ascii_of_string]; rewrite Ha; cbn [andb].
  f_equal; apply IH; intros Hin; apply H; now right.
Qed.

(** X10.  The directory name [clone_repo] derives from a URL never
    contains a slash, whatever the URL; and for a URL that ends in
    "/<name>.git", where <name> has neither a slash nor a dot, it is
    <name>. *)
Theorem repo_name_of_url :
  (forall git_url,
      exists n, repo_name git_url = Ret n /\ ~ In sep n)
  /\ (forall prefix name,
         ~ In sep name -> ~ In "."%char name ->
         repo_name (prefix ++ "/" ++ name ++ ".git") = Ret name).
Proof.
  split.
  - intros git_url; unfold repo_name.
    destruct (last_item_In _ (split_char_nonempty sep git_url))
      as (x & -> & Hin).
    eexists; split; [reflexivity|].
    pose proof (split_char_no_sep sep git_url) as Hall.
    rewrite Forall_forall in Hall; specialize (Hall _ Hin).
    intros H; apply replace_from_In in H as [H | []]; now apply Hall.
  - intros prefix name Hs Hd; unfold repo_name.
    assert (Hn : ~ In sep (name ++ list_ascii_of_string ".git")).
    { intros H; apply in_app_or in H as [H | H]; [now apply Hs|].
      cbn in H; unfold sep in H; intuition discriminate. }
    change (prefix ++ list_ascii_of_string "/" ++ name
              ++ list_ascii_of_string ".git")
      with (prefix ++ sep :: (name ++ list_ascii_of_string ".git")).
    rewrite (split_char_app sep prefix _ Hn), last_item_snoc.
    cbn [py_bind]; now rewrite replace_git_suffix.
Qed.

Lemma repo_name_of_url_witness :
  ~ In sep "python-udp-simple-chat"
  /\ ~ In "."%char "python-udp-simple-chat"
  /\ repo_name ("https://github.com/pavelzhuravlev" ++ "/"
                ++ "python-udp-simple-chat" ++ ".git")
     = Ret (list_ascii_of_string "python-udp-simple-chat").
Proof.
  assert (H1 : ~ In sep "python-udp-simple-chat")
    by (cbn; unfold sep; intuition discriminate).
  assert (H2 : ~ In "."%char "python-udp-simple-chat")
    by (cbn; intuition discriminate).
  split; [exact H1 | split; [exact H2|]].
  exact (proj2 repo_name_of_url _ _ H1 H2).
Defined.

(** The suffix is removed wherever it occurs, not only at the end. *)
Example repo_name_inner_suffix :
  repo_name "https://example.org/my.github.git" = Ret (list_ascii_of_string "myhub").
Proof. reflexivity. Qed.

End CloneFacts.

(** ** Starting and stopping the mock *)

Section LaunchFacts.
Import Supervisor Launch.

Lemma outlives_start_poll (p : process) :
  poll_is_none (elapse 1 p) = true <-> outlives_start p.
Proof.
  unfold outlives_start, elapse, poll_is_none.
  destruct p as [[|[d|]] t k r]; cbn.
  - split; [discriminate | intros [H | (d & H & _)]; discriminate].
  - destruct d as [|[|d]]; cbn; split; intros H;
      try reflexivity; try discriminate.
    + destruct H as [H | (d' & H & Hd)]; [discriminate|].
      injection H as <-; lia.
    + destruct H as [H | (d' & H & Hd)]; [discriminate|].
      injection H as <-; lia.
    + right; exists (S (S d)); split; [reflexivity | lia].
  - split; [now left | reflexivity].
Qed.

Lemma received_elapse (t : nat) (p : process) :
  received (elapse t p) = received p.
Proof. unfold elapse; now destruct (state p) as [|[d|]]. Qed.

Lemma received_polled (p : process) : received (polled p) = received p.
Proof. unfold polled; now destruct (state p) as [|[[|d]|]]. Qed.

Lemma polled_exited (p : process) :
  poll_is_none p = false -> running (polled p) = false.
Proof.
  unfold poll_is_none, polled, running.
  destruct (state p) as [|[[|d]|]] eqn:Hs; cbn; try discriminate;
    intros _; try reflexivity.
  now rewrite Hs.
Qed.

(** What a stop sends to a handle, and that it ends the process. *)
Lemma stop_signals (h : process) :
  exists p w,
    stop_background_process h = Some (p, w)
    /\ running p = false
    /\ if poll_is_none h
       then received p = received h ++ [SIGTERM]
            \/ received p = received h ++ [SIGTERM; SIGKILL]
       else received p = received h.
Proof.
  rewrite stop_outcome; unfold poll_is_none, running.
  destruct (state h) as [|[[|ttl]|]] eqn:Hs.
  - exists h, 0; rewrite Hs; auto.
  - eexists _, _; split; [reflexivity|]; cbn; auto.
  - destruct (sooner _ (on_terminate h)) as [d|];
      [destruct (d <=? 5)|]; eexists _, _; (split; [reflexivity|]);
      cbn; auto.
  - destruct (sooner _ (on_terminate h)) as [d|];
      [destruct (d <=? 5)|]; eexists _, _; (split; [reflexivity|]);
      cbn; auto.
Qed.

(** X11.  [start_background_process] returns a handle exactly when the
    launched process is still running after the one-second wait.  For a
    process that has exited by then it calls [communicate()], which has
    no timeout: no handle is returned, and the call returns at all only
    if the pipes of the child reach their end.  When the start and, for
    a handle, the stop of the [finally] clause have both returned, the
    launched process is not running; it was sent nothing if no handle
    was given or it had exited by the time of the stop, and else
    terminate, followed or not by kill. *)
Theorem start_then_stop_leaves_nothing :
  (forall c,
      (exists h r, start_background_process (Ret c) = Some (Some h, r))
      <-> outlives_start (proc c))
  /\ (forall c,
         start_background_process (Ret c) = None
         <-> ~ outlives_start (proc c) /\ pipes_open c = None)
  /\ (forall busy launched,
         match start_then_stop busy launched with
         | Some (Some p) =>
             running p = false
             /\ exists c,
                 launched = Ret c
                 /\ if poll_is_none (elapse 1 (proc c))
                       && poll_is_none (elapse busy (elapse 1 (proc c)))
                    then received p = received (proc c) ++ [SIGTERM]
                         \/ received p
                            = received (proc c) ++ [SIGTERM; SIGKILL]
                    else received p = received (proc c)
         | Some None => exists e, launched = Raise e
         | None =>
             exists c,
               launched = Ret c
               /\ ~ outlives_start (proc c) /\ pipes_open c = None
         end).
Proof.
  split; [|split].
  - intros c; rewrite <- outlives_start_poll.
    unfold start_background_process.
    destruct (poll_is_none (elapse 1 (proc c))).
    + split; [reflexivity | intros _; eauto].
    + split; [|discriminate].
      unfold communicate; destruct (pipes_open c);
        intros (h & r & H); discriminate.
  - intros c; rewrite <- outlives_start_poll.
    unfold start_background_process, communicate.
    destruct (poll_is_none (elapse 1 (proc c))).
    + split; [discriminate | intros [H _]; now elim H].
    + destruct (pipes_open c); split; try discriminate.
      * intros [_ H]; discriminate.
      * intros _; split; [discriminate | reflexivity].
      * reflexivity.
  - intros busy [c | e]; unfold start_then_stop, start_background_process;
      [|now exists e].
    destruct (poll_is_none (elapse 1 (proc c))) eqn:Hp; cbn [andb].
    + destruct (stop_signals (elapse busy (elapse 1 (proc c))))
        as (p & w & -> & Hr & Hs).
      split; [exact Hr | exists c; split; [reflexivity|]].
      rewrite !received_elapse in Hs; rewrite Hp; exact Hs.
    + unfold communicate; destruct (pipes_open c) eqn:Ho.
      * split; [now apply polled_exited|].
        exists c; split; [reflexivity|].
        rewrite Hp; cbn [andb].
        now rewrite received_polled, received_elapse.
      * exists c; split; [reflexivity | split; [|exact Ho]].
        rewrite <- outlives_start_poll, Hp; discriminate.
Qed.

End LaunchFacts.

(** ** More on the refinement phase *)

Section MoreRefineFacts.
Import Refine PassBranch Scenarios.

(** X12.  In [udp_qa_agent.py] the branch taken after a passing run
    never reaches its [break]: building the edge-case prompt raises on
    every input (a [TypeError] when an artifact could not be read, else
    a [NameError] for [port_Number]), before the backend is called, so
    the branch ends in the exception handler of the attempt and emits
    nothing. *)
Theorem pass_branch_always_raises :
  forall port qa_snippet e s,
    exists x,
      on_pass_as_written port qa_snippet e s = (Throw x, s, [])
      /\ (x = TypeError
          \/ x = OtherError "name 'port_Number' is not defined").
Proof.
  intros port qa_snippet e s.
  unfold on_pass_as_written, Prompts.get_udp_edge_case_generation_prompt,
    Prompts.capped, bind, gets, lift, ret, throw.
  destruct (current_mock_code s), (current_test_code s); cbn;
    eexists; split; try reflexivity; auto.
Qed.

(** The branch of the retry loop and the branch with the prompt builder
    of [agent_prompts.py] in place are the same statement. *)
Lemma on_pass_as_written_agrees (port : Z) (qa_snippet : str)
    (e : attempt_env) (s : st) :
  on_pass_as_written port qa_snippet e s = on_pass e s.
Proof.
  unfold on_pass_as_written, on_pass, edge_case_prompt, build_prompt,
    Prompts.get_udp_edge_case_generation_prompt, Prompts.capped, len_of,
    bind, gets, lift, ret, throw.
  destruct (current_mock_code s), (current_test_code s); reflexivity.
Qed.

Lemma on_pass_raises (e : attempt_env) (s : st) :
  exists x, on_pass e s = (Throw x, s, []).
Proof.
  unfold on_pass, edge_case_prompt, build_prompt, len_of, bind, gets, ret,
    throw.
  destruct (current_mock_code s), (current_test_code s); cbn; eauto.
Qed.

Section Faults.
Variable budget : nat.

Lemma attempt_body_never_passes (e : attempt_env) (attempt : nat)
    (s : st) :
  fst (fst (attempt_body budget e attempt s)) <> Some TestsPassed.
Proof.
  unfold attempt_body; destruct (start_ok e) eqn:Hs.
  - rewrite (try_block_handle _ _ _ _ Hs).
    destruct (evaluate budget e attempt (verdict_of e) _)
      as [[c s1] tail] eqn:E.
    assert (Hc : c <> Break TestsPassed).
    { destruct (verdict_of e) eqn:Hv;
        [|now destruct (evaluate_fail _ _ _ _ _ _ _ E)].
      unfold evaluate in E; cbn [negb andb] in E; unfold bind at 1 in E.
      destruct (on_pass_raises e
                  (set_passed true
                     (set_mock_process true (set_mock_process false s))))
        as [x Hx].
      rewrite Hx in E; injection E as <- _ _; discriminate. }
    destruct c as [[] | r | x]; cbn [mock_process set_overall];
      destruct (mock_process _); cbn [fst]; try discriminate;
      intros H; injection H as ->; now apply Hc.
  - rewrite (try_block_no_handle _ _ _ _ Hs); cbn; discriminate.
Qed.

Lemma retry_loop_never_passes (env : nat -> attempt_env)
    (attempts : list nat) :
  forall s, fst (fst (retry_loop budget env attempts s)) <> TestsPassed.
Proof.
  induction attempts as [|a rest IH]; intros s; [discriminate|].
  cbn [retry_loop].
  pose proof (attempt_body_never_passes (env a) a s) as Ha.
  destruct (attempt_body budget (env a) a s) as [[brk s1] ev1].
  destruct brk as [r|].
  - cbn [fst] in *; congruence.
  - specialize (IH s1).
    destruct (retry_loop budget env rest s1) as [[r2 s2] ev2].
    exact IH.
Qed.

Lemma refine_asset_never_passes (env : asset_env) (s : st) :
  fst (fst (refine_asset budget env s)) <> TestsPassed.
Proof. unfold refine_asset; apply retry_loop_never_passes. Qed.

End Faults.

(** X13.  In [udp_qa_agent.py] no asset leaves its retry loop through
    the "tests passed" break, and a phase over one or more assets never
    reports overall success, whatever the mocks, the test runs and the
    backend do, not even when every test run passes at once. *)
Theorem phase_never_reports_success :
  forall budget assets,
    Forall (fun env =>
              forall s, fst (fst (refine_asset budget env s)) <> TestsPassed)
      assets
    /\ (forall done, phase_3 budget assets <> Summary true done).
Proof.
  intros budget assets; split.
  - apply Forall_forall; intros env _ s; apply refine_asset_never_passes.
  - intros done H.
    pose proof (summary_true_all_passed _ _ _ H) as [Hlen Hall].
    pose proof (assets_processed_independently budget assets) as Hind.
    rewrite H in Hind; subst done.
    destruct assets as [|env rest]; [discriminate H|].
    inversion Hall as [|? ? Hp _]; subst.
    apply (refine_asset_never_passes budget env initial).
    unfold alone in Hp.
    destruct (refine_asset budget env initial) as [[r s'] evs].
    cbn in *; now destruct r.
Qed.

(** *** Counting the backend calls *)

Section Emits.
Context (f : event -> bool).

Lemma emits_weaken {A} (n n' : nat) (m : M A) :
  n <= n' -> emits f n m -> emits f n' m.
Proof. intros Hn Hm s; specialize (Hm s); lia. Qed.

Lemma emits_ret {A} (a : A) : emits f 0 (ret a).
Proof. intros s; cbn; lia. Qed.

Lemma emits_bind {A C} (a b : nat) (m : M A) (k : A -> M C) :
  emits f a m -> (forall x, emits f b (k x)) -> emits f (a + b) (bind m k).
Proof.
  intros Hm Hk s; unfold bind; specialize (Hm s).
  destruct (m s) as [[c s1] ev1]; cbn [snd] in Hm.
  destruct c as [x | r | e]; cbn [snd]; try lia.
  specialize (Hk x s1); destruct (k x s1) as [[c2 s2] ev2].
  cbn [snd] in *; rewrite count_app; lia.
Qed.

Lemma emits_seq {A C} (n a b : nat) (m : M A) (k : A -> M C) :
  a + b <= n ->
  emits f a m -> (forall x, emits f b (k x)) -> emits f n (bind m k).
Proof.
  intros Hn Hm Hk; eapply emits_weaken; [exact Hn|].
  now apply emits_bind.
Qed.

Lemma emits_emit (e : event) : emits f (b2n (f e)) (emit e).
Proof.
  intros s; unfold emit; cbn [snd]; rewrite count_cons.
  unfold count; cbn; lia.
Qed.

Lemma emits_modify (g : st -> st) : emits f 0 (modify g).
Proof. intros s; cbn; lia. Qed.

Lemma emits_gets {A} (g : st -> A) : emits f 0 (gets g).
Proof. intros s; cbn; lia. Qed.

Lemma emits_throw {A} (x : exn) : emits f 0 (@throw A x).
Proof. intros s; cbn; lia. Qed.

Lemma emits_break {A} (r : loop_exit) : emits f 0 (@break A r).
Proof. intros s; cbn; lia. Qed.

Lemma emits_lift {A} (m : py A) : emits f 0 (lift m).
Proof. destruct m; [apply emits_ret | apply emits_throw]. Qed.

Lemma emits_build_prompt : emits f 0 build_prompt.
Proof.
  unfold build_prompt.
  apply (emits_bind 0 0); [apply emits_gets | intros mock_code].
  apply (emits_bind 0 0); [apply emits_gets | intros test_code].
  apply (emits_bind 0 0);
    [destruct mock_code; [apply emits_ret | apply emits_throw] | intros _].
  apply (emits_bind 0 0);
    [destruct test_code; [apply emits_ret | apply emits_throw] | intros _].
  apply emits_ret.
Qed.

Lemma emits_call (r : llm_reply) (mark : event) :
  emits f (b2n (f mark)) (call_ollama_llm r mark).
Proof.
  unfold call_ollama_llm.
  apply (emits_seq _ (b2n (f mark)) 0); [lia | apply emits_emit | intros _].
  destruct r; [apply emits_ret | apply emits_throw].
Qed.

Hypothesis saves_not_counted :
  forall c, f (SavedMock c) = false /\ f (SavedTest c) = false.

Lemma emits_apply_mock_update (fix_suggestion : str) :
  emits f 0 (apply_mock_update fix_suggestion).
Proof.
  unfold apply_mock_update.
  destruct (contains new_mock_code_marker fix_suggestion);
    [|apply emits_ret].
  apply (emits_bind 0 0); [apply emits_lift | intros x].
  apply (emits_bind 0 0).
  { destruct (contains new_test_code_marker x);
      [apply emits_lift | apply emits_ret]. }
  intros y; apply (emits_bind 0 0); [apply emits_modify | intros _].
  pose proof (emits_emit (SavedMock (strip y))) as H.
  now rewrite (proj1 (saves_not_counted _)) in H.
Qed.

Lemma emits_apply_test_update (fix_suggestion : str) :
  emits f 0 (apply_test_update fix_suggestion).
Proof.
  unfold apply_test_update.
  destruct (contains new_test_code_marker fix_suggestion);
    [|apply emits_ret].
  apply (emits_bind 0 0); [apply emits_lift | intros x].
  apply (emits_bind 0 0).
  { destruct (contains new_mock_code_marker x);
      [apply emits_lift | apply emits_ret]. }
  intros y; apply (emits_bind 0 0); [apply emits_modify | intros _].
  pose proof (emits_emit (SavedTest (strip y))) as H.
  now rewrite (proj2 (saves_not_counted _)) in H.
Qed.

Lemma emits_request_fix (e : attempt_env) :
  emits f (b2n (f AskedFix)) (request_fix e).
Proof.
  unfold request_fix, repair.
  apply (emits_seq _ 0 (b2n (f AskedFix)));
    [lia | apply emits_modify | intros _].
  apply (emits_seq _ 0 (b2n (f AskedFix)));
    [lia | apply emits_build_prompt | intros _].
  apply (emits_seq _ (b2n (f AskedFix)) 0);
    [lia | apply emits_call | intros reply].
  destruct (text_of reply) as [fix_suggestion|]; [|apply emits_break].
  apply (emits_bind 0 0); [apply emits_apply_mock_update | intros _].
  apply (emits_bind 0 0); [apply emits_apply_test_update | intros _].
  destruct (negb _); [apply emits_break | apply emits_ret].
Qed.

Lemma emits_on_pass (e : attempt_env) :
  emits f (b2n (f AskedEdgeCases)) (on_pass e).
Proof.
  unfold on_pass, edge_case_prompt.
  apply (emits_seq _ 0 (b2n (f AskedEdgeCases))); [lia | | intros _].
  { apply (emits_bind 0 0); [apply emits_build_prompt | intros _].
    apply emits_throw. }
  apply (emits_seq _ (b2n (f AskedEdgeCases)) 0);
    [lia | apply emits_call | intros _].
  apply emits_break.
Qed.

Lemma emits_evaluate (budget : nat) (e : attempt_env) (attempt : nat)
    (p : bool) :
  emits f
    (if p then b2n (f AskedEdgeCases)
     else if attempt <? budget then b2n (f AskedFix) else 0)
    (evaluate budget e attempt p).
Proof.
  unfold evaluate; destruct p; cbn [negb andb].
  - apply (emits_seq _ (b2n (f AskedEdgeCases)) 0);
      [lia | apply emits_on_pass | intros _; apply emits_ret].
  - apply (emits_seq _ 0 (if attempt <? budget then b2n (f AskedFix) else 0));
      [lia | apply emits_ret | intros _].
    destruct (attempt <? budget); [apply emits_request_fix|].
    destruct (attempt =? budget); [apply emits_modify | apply emits_ret].
Qed.

(** The events of an attempt, with the part after the check named. *)
Lemma attempt_body_events (budget : nat) (e : attempt_env) (attempt : nat)
    (s : st) :
  (start_ok e = false
   /\ snd (attempt_body budget e attempt s) = [Started false])
  \/ (start_ok e = true
      /\ exists tail,
          snd (attempt_body budget e attempt s)
          = Started true :: Ran :: Classified (verdict_of e)
              :: tail ++ [Stopped]
          /\ count f tail
             <= (if verdict_of e then b2n (f AskedEdgeCases)
                 else if attempt <? budget then b2n (f AskedFix) else 0)).
Proof.
  destruct (start_ok e) eqn:Hs; [right | left]; split; try reflexivity.
  - unfold attempt_body; rewrite (try_block_handle _ _ _ _ Hs).
    pose proof (emits_evaluate budget e attempt (verdict_of e)
                  (set_passed (verdict_of e)
                     (set_mock_process true (set_mock_process false s))))
      as Hc.
    pose proof (evaluate_obeys budget e attempt (verdict_of e)
                  (set_passed (verdict_of e)
                     (set_mock_process true (set_mock_process false s))))
      as Ho.
    destruct (evaluate budget e attempt (verdict_of e) _)
      as [[c s1] tail].
    destruct (Ho _ _ _ eq_refl) as [(_ & Hm & _) _].
    cbn in Hm, Hc; exists tail; split; [|exact Hc].
    destruct c as [[] | r | x]; cbn [mock_process set_overall];
      rewrite Hm; reflexivity.
  - now rewrite (attempt_body_no_handle _ _ _ _ Hs).
Qed.

End Emits.

Section Calls.
Variable budget : nat.
Context (f : event -> bool).
Hypothesis f_saves : forall c, f (SavedMock c) = false /\ f (SavedTest c) = false.
Hypothesis f_started : forall b, f (Started b) = false.
Hypothesis f_ran : f Ran = false.
Hypothesis f_classified : forall p, f (Classified p) = false.
Hypothesis f_stopped : f Stopped = false.

Lemma count_in_attempt (e : attempt_env) (attempt : nat) (s : st) :
  count f (snd (attempt_body budget e attempt s)) <= per_attempt f budget e attempt.
Proof.
  unfold per_attempt.
  destruct (attempt_body_events f f_saves budget e attempt s)
    as [[Hs ->] | (Hs & tail & -> & Hc)]; rewrite Hs.
  - rewrite count_cons, f_started.
    change (count f []) with 0; cbn [b2n]; lia.
  - rewrite !count_cons, count_app, count_cons, f_started, f_ran,
      f_classified, f_stopped.
    change (count f []) with 0; cbn [b2n]; lia.
Qed.

Lemma count_in_loop (env : nat -> attempt_env) (attempts : list nat) :
  forall s,
    count f (snd (retry_loop budget env attempts s))
    <= list_sum (map (fun a => per_attempt f budget (env a) a) attempts).
Proof.
  induction attempts as [|a rest IH]; intros s; [cbn; lia|].
  cbn [retry_loop map].
  change (list_sum (per_attempt f budget (env a) a
                      :: map (fun a => per_attempt f budget (env a) a) rest))
    with (per_attempt f budget (env a) a
          + list_sum (map (fun a => per_attempt f budget (env a) a) rest)).
  pose proof (count_in_attempt (env a) a s) as Ha.
  destruct (attempt_body budget (env a) a s) as [[brk s1] ev1].
  cbn [snd] in Ha; destruct brk as [r|]; cbn [snd]; [lia|].
  specialize (IH s1).
  destruct (retry_loop budget env rest s1) as [[r2 s2] ev2].
  cbn [snd] in *; rewrite count_app; lia.
Qed.

End Calls.

Lemma list_sum_le {A} (g h : A -> nat) (l : list A) :
  (forall a, g a <= h a) -> list_sum (map g l) <= list_sum (map h l).
Proof.
  intros H; induction l as [|a l IH]; [cbn; lia|].
  cbn [map]; change (list_sum (?x :: ?t)) with (x + list_sum t).
  specialize (H a); lia.
Qed.

Lemma list_sum_ones {A} (l : list A) :
  list_sum (map (fun _ => 1) l) = length l.
Proof.
  induction l as [|a l IH]; [reflexivity|].
  cbn [map length]; change (list_sum (?x :: ?t)) with (x + list_sum t).
  lia.
Qed.

Lemma list_sum_below (b n : nat) :
  forall s,
    list_sum (map (fun a => if a <? b then 1 else 0) (seq s n)) <= b - s.
Proof.
  induction n as [|n IH]; intros s; [cbn; lia|].
  cbn [seq map]; change (list_sum (?x :: ?t)) with (x + list_sum t).
  specialize (IH (S s)); destruct (Nat.ltb_spec s b); lia.
Qed.

Lemma b2n_le (b : bool) : b2n b <= 1.
Proof. destruct b; cbn; lia. Qed.

Lemma edge_calls_in_loop (budget : nat) (env : nat -> attempt_env)
    (attempts : list nat) :
  forall s,
    count is_asked_edge (snd (retry_loop budget env attempts s)) <= 1.
Proof.
  induction attempts as [|a rest IH]; intros s; [cbn; lia|].
  cbn [retry_loop].
  pose proof (count_in_attempt budget is_asked_edge
                (fun c => conj eq_refl eq_refl) (fun b => eq_refl) eq_refl
                (fun p => eq_refl) eq_refl (env a) a s) as Ha.
  unfold per_attempt in Ha.
  destruct (start_ok (env a)) eqn:Hs.
  - destruct (attempt_body_handle budget _ a s Hs)
      as (brk & s1 & tail & E & _ & _ & _ & _ & _ & Hnone & _).
    rewrite E in *; cbn [snd] in Ha.
    destruct brk as [r|]; cbn [snd].
    + destruct (verdict_of (env a)), (a <? budget);
        cbn [b2n is_asked_edge] in Ha; lia.
    + pose proof (Hnone eq_refl) as Hv; rewrite Hv in Ha.
      specialize (IH s1).
      destruct (retry_loop budget env rest s1) as [[r2 s2] ev2].
      cbn [snd] in *; rewrite count_app, Hv.
      destruct (a <? budget); cbn [b2n is_asked_edge] in Ha; lia.
  - rewrite (attempt_body_no_handle budget _ a s Hs) in *.
    cbn [snd] in *; lia.
Qed.

(** X14.  For one asset the backend is asked for a fix at most as many
    times as the retry budget, asked for edge cases at most once, and
    asked at most budget + 1 times in all: every attempt makes at most
    one backend call, and the last attempt never asks for a fix. *)
Theorem backend_calls_bounded :
  forall budget env s,
    let evs := snd (refine_asset budget env s) in
    count is_asked_fix evs <= budget
    /\ count is_asked_edge evs <= 1
    /\ count is_asked evs <= budget + 1.
Proof.
  intros budget env s evs; unfold evs, refine_asset, attempt_range.
  set (s0 := set_test_code _ _).
  set (e := attempt_env_at env).
  split; [|split].
  - pose proof (count_in_loop budget is_asked_fix
                  (fun c => conj eq_refl eq_refl) (fun b => eq_refl) eq_refl
                  (fun p => eq_refl) eq_refl e (seq 0 (budget + 1)) s0)
      as H1.
    assert (H2 : list_sum
                   (map (fun a => per_attempt is_asked_fix budget (e a) a)
                      (seq 0 (budget + 1)))
                 <= list_sum
                      (map (fun a => if a <? budget then 1 else 0)
                         (seq 0 (budget + 1)))).
    { apply list_sum_le; intros a; unfold per_attempt.
      destruct (start_ok (e a)), (verdict_of (e a)), (a <? budget);
        cbn; lia. }
    pose proof (list_sum_below budget (budget + 1) 0) as H3; lia.
  - apply edge_calls_in_loop.
  - pose proof (count_in_loop budget is_asked
                  (fun c => conj eq_refl eq_refl) (fun b => eq_refl) eq_refl
                  (fun p => eq_refl) eq_refl e (seq 0 (budget + 1)) s0)
      as H1.
    assert (H2 : list_sum
                   (map (fun a => per_attempt is_asked budget (e a) a)
                      (seq 0 (budget + 1)))
                 <= list_sum (map (fun _ => 1) (seq 0 (budget + 1)))).
    { apply list_sum_le; intros a; unfold per_attempt.
      destruct (start_ok (e a)), (verdict_of (e a)), (a <? budget);
        cbn; lia. }
    rewrite list_sum_ones, length_seq in H2; lia.
Qed.

(** *** Handles over the whole phase *)

Lemma retry_loop_handles (budget : nat) (env : nat -> attempt_env)
    (attempts : list nat) :
  forall s,
    let evs := snd (retry_loop budget env attempts s) in
    count is_ran evs = count acquired evs
    /\ count is_stopped evs = count acquired evs.
Proof.
  induction attempts as [|a rest IH]; intros s; [now cbn|].
  cbn [retry_loop]; destruct (start_ok (env a)) eqn:Hs.
  - destruct (attempt_body_handle budget _ a s Hs)
      as (brk & s1 & tail & E & Hq & _).
    rewrite E.
    assert (C1 : count is_ran
                   (Started true :: Ran :: Classified (verdict_of (env a))
                      :: tail ++ [Stopped]) = 1)
      by (rewrite count_handle; auto; now intros []).
    assert (C2 : count acquired
                   (Started true :: Ran :: Classified (verdict_of (env a))
                      :: tail ++ [Stopped]) = 1)
      by (rewrite count_handle; auto; now intros []).
    assert (C3 : count is_stopped
                   (Started true :: Ran :: Classified (verdict_of (env a))
                      :: tail ++ [Stopped]) = 1)
      by (rewrite count_handle; auto; now intros []).
    destruct brk as [r|]; cbn [snd]; [lia|].
    specialize (IH s1).
    destruct (retry_loop budget env rest s1) as [[r2 s2] ev2].
    cbn [snd] in *; rewrite !count_app; lia.
  - rewrite (attempt_body_no_handle budget _ a s Hs); now cbn.
Qed.

(** X15.  Over the whole phase, for every asset that was handled, the
    mock was stopped exactly as often as a handle for it was obtained,
    and the tests were run exactly as often: no started mock is left
    running and no test runs without one, whether the phase ends with
    its summary or with the exception of line 353. *)
Theorem no_handle_leaks :
  forall budget assets,
    let balanced (x : loop_exit * list event) :=
      count is_stopped (snd x) = count acquired (snd x)
      /\ count is_ran (snd x) = count acquired (snd x) in
    match phase_3 budget assets with
    | Summary _ done => length done = length assets /\ Forall balanced done
    | Crashed _ done => Forall balanced done
    | NothingToDo => assets = []
    end.
Proof.
  intros budget assets balanced.
  assert (Hb : forall env, balanced (alone budget env)).
  { intros env; unfold balanced, alone, refine_asset.
    pose proof (retry_loop_handles budget (attempt_env_at env)
                  (attempt_range budget)
                  (set_test_code (test_content env)
                     (set_mock_code (mock_content env) initial)))
      as [H1 H2].
    destruct (retry_loop budget _ _ _) as [[r s'] evs]; cbn [snd] in *.
    now split. }
  pose proof (assets_processed_independently budget assets) as H.
  destruct (phase_3 budget assets) as [|b done|x done].
  - exact H.
  - subst done; split; [apply length_map|].
    apply Forall_forall; intros x Hx.
    apply in_map_iff in Hx as (env & <- & _); apply Hb.
  - destruct H as (k & _ & ->).
    apply Forall_forall; intros y Hy.
    apply in_map_iff in Hy as (env & <- & _); apply Hb.
Qed.

(** *** The two sections of a repair reply *)

Lemma startswith_shorter (p x y : str) :
  startswith p (x ++ y) = true -> length p <= length x ->
  startswith p x = true.
Proof.
  revert x; induction p as [|a p IH]; intros x H Hl; [reflexivity|].
  destruct x as [|b x]; [cbn in Hl; lia|].
  cbn in H |- *; apply andb_true_iff in H as [-> H]; cbn.
  apply IH; [exact H | cbn in Hl; lia].
Qed.

Lemma startswith_contains (p s : str) :
  startswith p s = true -> contains p s = true.
Proof. intros H; destruct s; cbn; now rewrite H. Qed.

(** The first occurrence of [sep] in [a ++ sep ++ b] is the one after
    [a] when none begins inside [a]. *)
Lemma partition_first (sep a b : str) :
  sep <> [] ->
  contains sep (a ++ removelast sep) = false ->
  partition sep (a ++ sep ++ b) = Some (a, b).
Proof.
  intros Hne; induction a as [|c a IH]; intros H.
  - cbn [app]; destruct (sep ++ b) as [|x t] eqn:E.
    + destruct sep; [now destruct Hne | discriminate E].
    + cbn [partition]; rewrite <- E, startswith_app.
      now rewrite skipn_app, skipn_all, Nat.sub_diag.
  - cbn [app] in H |- *; cbn [contains] in H.
    apply orb_false_iff in H as [Hs Hc].
    cbn [partition].
    destruct (startswith sep (c :: a ++ sep ++ b)) eqn:E.
    + exfalso.
      rewrite (app_removelast_last "000"%char Hne) in E at 2.
      rewrite <- app_assoc, app_assoc in E.
      change (c :: (a ++ removelast sep) ++ [last sep "000"%char] ++ b)
        with ((c :: a ++ removelast sep) ++ [last sep "000"%char] ++ b)
        in E.
      apply startswith_shorter in E; [congruence|].
      cbn [length]; rewrite length_app.
      assert (length sep = length (removelast sep) + 1).
      { rewrite (app_removelast_last "000"%char Hne) at 1.
        now rewrite length_app. }
      lia.
    + now rewrite (IH Hc).
Qed.

Lemma contains_false_part (sep x y z : str) :
  contains sep (x ++ y ++ z) = false -> contains sep y = false.
Proof.
  intros H; apply contains_false_iff; intros (p & q & ->).
  apply contains_false_iff in H; apply H.
  exists (x ++ p), (q ++ z); now rewrite <- !app_assoc.
Qed.

(** X16.  A repair reply that carries the mock section and then the
    test section, each after its marker, is taken apart as intended:
    the mock becomes the trimmed text between the two markers, the test
    the trimmed text after the second, and both are saved, the mock
    first.  The preconditions say that the markers occur nowhere else:
    no mock marker begins before the one given or lies in the test
    section, and no test marker begins before the one given. *)
Theorem repair_sections_round_trip :
  forall pre mock_section test_section s,
    let fix_suggestion :=
      pre ++ new_mock_code_marker ++ mock_section
          ++ new_test_code_marker ++ test_section in
    contains new_mock_code_marker
      (pre ++ removelast new_mock_code_marker) = false ->
    contains new_test_code_marker
      (pre ++ new_mock_code_marker ++ mock_section
           ++ removelast new_test_code_marker) = false ->
    contains new_mock_code_marker test_section = false ->
    bind (apply_mock_update fix_suggestion)
      (fun _ => apply_test_update fix_suggestion) s
    = (Normal tt,
       set_test_code (Some (strip test_section))
         (set_mock_code (Some (strip mock_section)) s),
       [SavedMock (strip mock_section); SavedTest (strip test_section)]).
Proof.
  intros pre M T s fix_suggestion H1 H2 H3.
  assert (Hmm : new_mock_code_marker <> []) by discriminate.
  assert (Htm : new_test_code_marker <> []) by discriminate.
  assert (E1 : partition new_mock_code_marker fix_suggestion
               = Some (pre, M ++ new_test_code_marker ++ T)).
  { unfold fix_suggestion; now apply partition_first. }
  assert (E2 : partition new_test_code_marker
                 (M ++ new_test_code_marker ++ T) = Some (M, T)).
  { apply partition_first; [exact Htm|].
    apply (contains_false_part _ (pre ++ new_mock_code_marker) _ []).
    now rewrite app_nil_r, <- !app_assoc. }
  assert (E3 : partition new_test_code_marker fix_suggestion
               = Some (pre ++ new_mock_code_marker ++ M, T)).
  { unfold fix_suggestion.
    replace (pre ++ new_mock_code_marker ++ M ++ new_test_code_marker ++ T)
      with ((pre ++ new_mock_code_marker ++ M)
              ++ new_test_code_marker ++ T)
      by now rewrite <- !app_assoc.
    apply partition_first; [exact Htm|].
    now rewrite <- !app_assoc. }
  assert (C1 : contains new_mock_code_marker fix_suggestion = true)
    by apply contains_middle.
  assert (C2 : contains new_test_code_marker
                 (M ++ new_test_code_marker ++ T) = true)
    by apply contains_middle.
  assert (C3 : contains new_test_code_marker fix_suggestion = true).
  { unfold fix_suggestion.
    replace (pre ++ new_mock_code_marker ++ M ++ new_test_code_marker ++ T)
      with ((pre ++ new_mock_code_marker ++ M)
              ++ new_test_code_marker ++ T)
      by now rewrite <- !app_assoc.
    apply contains_middle. }
  unfold apply_mock_update, apply_test_update, split1.
  rewrite C1, C3, E1, E3.
  cbv beta iota delta [bind ret lift item nth_error modify emit throw].
  rewrite C2, H3, E2.
  cbv beta iota delta [bind ret lift item nth_error modify emit throw app].
  reflexivity.
Qed.

Lemma repair_sections_round_trip_witness :
  bind (apply_mock_update
          ("Here is the fix.
" ++ new_mock_code_marker ++ "
x = 1
" ++ new_test_code_marker ++ "
assert x == 1
"))
    (fun _ => apply_test_update
          ("Here is the fix.
" ++ new_mock_code_marker ++ "
x = 1
" ++ new_test_code_marker ++ "
assert x == 1
")) (loaded passes_at_once)
  = (Normal tt,
     set_test_code (Some (list_ascii_of_string "assert x == 1"))
       (set_mock_code (Some (list_ascii_of_string "x = 1"))
          (loaded passes_at_once)),
     [SavedMock "x = 1"; SavedTest "assert x == 1"]).
Proof.
  exact (repair_sections_round_trip "Here is the fix.
" "
x = 1
" "
assert x == 1
" (loaded passes_at_once) eq_refl eq_refl eq_refl).
Defined.

End MoreRefineFacts.

(** ** The generated assets *)

Section GenerateFacts.
Import Catalog Identify Generate.

Lemma lower_char_idem (c : ascii) : lower_char (lower_char c) = lower_char c.
Proof. destruct c as [[] [] [] [] [] [] [] []]; reflexivity. Qed.

Lemma lower_char_space (c : ascii) :
  lower_char c = " "%char -> c = " "%char.
Proof.
  destruct c as [[] [] [] [] [] [] [] []]; intros H;
    try reflexivity; discriminate H.
Qed.

Lemma replace_space_no_space (s : str) :
  ~ In " "%char (replace " " "_" s).
Proof.
  unfold replace; induction s as [|c s IH]; [intros []|].
  cbn [replace_from startswith list_ascii_of_string length Nat.sub].
  destruct (Ascii.eqb_spec " " c) as [<- | Hne]; cbn [andb app].
  - intros [H | H]; [discriminate | now apply IH].
  - intros [H | H]; [now apply Hne | now apply IH].
Qed.

(** X17.  The name under which an asset's files are written has no
    space in it and no capital letter: it is its own lower-case
    form. *)
Theorem service_slug_plain :
  forall name,
    ~ In " "%char (service_slug name)
    /\ lower (service_slug name) = service_slug name.
Proof.
  intros name; unfold service_slug, lower; split.
  - intros H; apply in_map_iff in H as (c & Hc & Hin).
    apply lower_char_space in Hc; subst c.
    now apply (replace_space_no_space name).
  - rewrite map_map; apply map_ext; intros c; apply lower_char_idem.
Qed.

Lemma path_join_suffix (a b : str) :
  startswith [sep] b = false -> exists pre, path_join a b = pre ++ b.
Proof.
  intros H; unfold path_join; rewrite H.
  destruct a as [|c a]; [now exists []|].
  destruct (endswith [sep] (c :: a)).
  - now exists (c :: a).
  - exists ((c :: a) ++ [sep]); now rewrite <- app_assoc.
Qed.

Lemma mock_and_test_paths_differ (mocks_dir tests_dir service_name : str)
    (port : Z) :
  path_join mocks_dir (file_name "mock" service_name port)
  <> path_join tests_dir (file_name "test" service_name port).
Proof.
  destruct (path_join_suffix mocks_dir (file_name "mock" service_name port)
              eq_refl) as [p1 ->].
  destruct (path_join_suffix tests_dir (file_name "test" service_name port)
              eq_refl) as [p2 ->].
  unfold file_name; intros H.
  rewrite !(app_assoc _ (list_ascii_of_string _)
              (list_ascii_of_string "_" ++ _)) in H.
  apply app_inv_tail in H.
  apply (f_equal (@rev ascii)) in H; rewrite !rev_app_distr in H.
  discriminate H.
Qed.

Lemma generate_one_made (mocks_dir tests_dir qa : str) (i : nat)
    (d : service) (g : gen_env) (a : asset) :
  generate_one mocks_dir tests_dir qa i d g = Ret (Some a) ->
  made_from mocks_dir tests_dir i d a.
Proof.
  unfold generate_one, made_from.
  destruct (get_port d) as [port|]; [|discriminate].
  destruct (Z.eqb_spec port 0) as [-> | Hp]; [discriminate|].
  destruct (reply (mock_reply g)) as [[mock_code|]|]; cbn [py_bind];
    try discriminate.
  destruct (reply (test_reply g)) as [[test_code|]|]; cbn [py_bind];
    try discriminate.
  - intros H; injection H as <-; cbn; auto.
  - destruct (orphan_removal g); discriminate.
Qed.

Lemma generate_one_skips (mocks_dir tests_dir qa : str) (i : nat)
    (d : service) (g : gen_env) (a : asset) :
  generate_one mocks_dir tests_dir qa i d g = Ret (Some a) ->
  port_ok (get_port d) = true.
Proof.
  unfold generate_one, port_ok.
  destruct (get_port d) as [port|]; [|discriminate].
  now destruct (port =? 0)%Z.
Qed.

Lemma generate_from_made (mocks_dir tests_dir qa : str)
    (envs : nat -> gen_env) (services : list service) :
  forall i acc out,
    generate_from mocks_dir tests_dir qa i services envs acc = Ret out ->
    exists new,
      out = acc ++ new
      /\ length new <= length (services_for_generation services)
      /\ Forall (fun a => exists d k,
                     In d services /\ made_from mocks_dir tests_dir k d a)
           new.
Proof.
  induction services as [|d rest IH]; intros i acc out H.
  - injection H as <-; exists []; now rewrite app_nil_r.
  - cbn [generate_from] in H.
    destruct (generate_one mocks_dir tests_dir qa i d (envs i))
      as [made|] eqn:E; [|discriminate].
    cbn [py_bind] in H; apply IH in H as (new & -> & Hl & Hall).
    assert (Hall' : Forall (fun a => exists d0 k,
                               In d0 (d :: rest)
                               /\ made_from mocks_dir tests_dir k d0 a) new).
    { eapply Forall_impl; [|exact Hall].
      intros a (d0 & k & Hin & Hm); exists d0, k; split; [now right|auto]. }
    unfold services_for_generation in *; cbn [filter].
    destruct made as [a|].
    + exists (a :: new); rewrite <- app_assoc; split; [reflexivity|].
      rewrite (generate_one_skips _ _ _ _ _ _ _ E); cbn [length].
      split; [lia|]; constructor; [|exact Hall'].
      exists d, i; split; [now left|].
      eapply generate_one_made; exact E.
    + exists new; split; [reflexivity|]; split; [|exact Hall'].
      destruct (port_ok (get_port d)); cbn [length]; lia.
Qed.

Lemma generate_from_returns (mocks_dir tests_dir qa : str)
    (envs : nat -> gen_env) (services : list service) :
  (forall i, answers (envs i)) ->
  forall i acc,
    exists out,
      generate_from mocks_dir tests_dir qa i services envs acc = Ret out.
Proof.
  intros Ha; induction services as [|d rest IH]; intros i acc;
    [now eexists|].
  cbn [generate_from].
  assert (E : exists made,
             generate_one mocks_dir tests_dir qa i d (envs i) = Ret made).
  { destruct (Ha i) as ([t1 H1] & [t2 H2] & H3); unfold generate_one.
    destruct (get_port d) as [port|]; [|now eexists].
    destruct (port =? 0)%Z; [now eexists|].
    rewrite H1, H2, H3; cbn [reply py_bind].
    destruct (Refine.text_of t1); cbn [py_bind]; [|now eexists].
    destruct (Refine.text_of t2); cbn [py_bind]; now eexists. }
  destruct E as [made ->]; cbn [py_bind]; apply IH.
Qed.

(** X18.  Asset generation returns whenever the backend answers every
    call.  Whenever it returns, every asset it lists comes from one of
    the parsed services and carries that service's port, which is an
    integer other than zero; its mock file and its test file are two
    different paths, whatever the two directories are; and there are at
    most as many assets as services that passed the port check. *)
Theorem generated_assets_sound :
  forall mocks_dir tests_dir qa services envs,
    ((forall i, answers (envs i)) ->
     exists assets,
       generate_assets mocks_dir tests_dir qa services envs = Ret assets)
    /\ match generate_assets mocks_dir tests_dir qa services envs with
       | Ret assets =>
           length assets <= length (services_for_generation services)
           /\ Forall (fun a =>
                        asset_port a <> 0%Z
                        /\ mock_file a <> test_file a
                        /\ exists d, In d services
                                     /\ get_port d = Some (asset_port a))
                assets
       | Raise _ => True
       end.
Proof.
  intros mocks_dir tests_dir qa services envs; unfold generate_assets.
  split; [intros Ha; now apply generate_from_returns|].
  destruct (generate_from mocks_dir tests_dir qa 0 services envs [])
    as [assets|] eqn:E; [|exact I].
  apply generate_from_made in E as (new & -> & Hl & Hall).
  cbn [app]; split; [exact Hl|].
  eapply Forall_impl; [|exact Hall].
  intros a (d & k & Hin & Hp & Hnz & _ & Hm & Ht).
  split; [exact Hnz|]; split; [|now exists d].
  rewrite Hm, Ht; apply mock_and_test_paths_differ.
Qed.

Lemma generated_assets_sound_witness :
  (forall i : nat,
      answers (steady_backend (Some (list_ascii_of_string "m"))
                 (Some (list_ascii_of_string "t"))))
  /\ exists assets,
      generate_assets "out/mocks" "out/tests" "notes"
        [ {| name := Some (list_ascii_of_string "Auth UDP");
             port := Some (Some 5005%Z);
             functionality := None |} ]
        (fun _ => steady_backend (Some (list_ascii_of_string "m"))
                    (Some (list_ascii_of_string "t")))
      = Ret assets.
Proof.
  assert (H : forall i : nat,
             answers (steady_backend (Some (list_ascii_of_string "m"))
                        (Some (list_ascii_of_string "t")))).
  { intros i; unfold answers, steady_backend; cbn; eauto. }
  split; [exact H|].
  exact (proj1 (generated_assets_sound "out/mocks" "out/tests" "notes" _
                  (fun _ => steady_backend _ _)) H).
Defined.

(** The file names of one service. *)
Example generated_asset_paths :
  generate_assets "out/mocks" "out/tests/" "notes"
    [ {| name := Some (list_ascii_of_string "Auth UDP");
         port := Some (Some 5005%Z);
         functionality := None |} ]
    (fun _ => steady_backend (Some (list_ascii_of_string "m"))
                (Some (list_ascii_of_string "t")))
  = Ret [ {| service_name := "auth_udp";
             asset_port := 5005;
             asset_functionality := "N/A";
             mock_file := "out/mocks/mock_auth_udp_port5005.py";
             test_file := "out/tests/test_auth_udp_port5005.py";
             original_qa_snippet :=
               "Service: auth_udp, Port: 5005, Functionality: N/A
Details from QA Reference:
notes" |} ].
Proof. reflexivity. Qed.

End GenerateFacts.

(** ** The graceful stop *)

Section MoreSupervisorFacts.
Import Supervisor.

(** X19.  A running process that exits within five seconds of the
    terminate signal is stopped without the kill: it is sent terminate
    and nothing after it, and the stop operation returns as soon as the
    process has exited, after at most the time the process takes to
    react to the signal. *)
Theorem graceful_stop_is_prompt :
  forall p d,
    poll_is_none p = true ->
    on_terminate p = Some d -> d <= 5 ->
    exists p' waited,
      stop_background_process p = Some (p', waited)
      /\ state p' = Exited
      /\ waited <= d
      /\ received p' = received p ++ [SIGTERM].
Proof.
  intros p d Hp Ht Hd; rewrite stop_outcome.
  unfold poll_is_none in Hp.
  destruct (state p) as [|[[|ttl]|]]; try discriminate; rewrite Ht;
    cbn -[Nat.min Nat.leb].
  - destruct (Nat.leb_spec (Nat.min (S ttl) d) 5); [|lia].
    eexists _, _; repeat split; lia.
  - destruct (Nat.leb_spec d 5); [|lia].
    eexists _, _; repeat split; lia.
Qed.

Lemma graceful_stop_is_prompt_witness :
  exists p' waited,
    stop_background_process
      {| state := Alive None; on_terminate := Some 2; on_kill := 1;
         received := [] |}
    = Some (p', waited)
    /\ state p' = Exited
    /\ waited <= 2
    /\ received p' = [SIGTERM].
Proof.
  apply (graceful_stop_is_prompt
           {| state := Alive None; on_terminate := Some 2; on_kill := 1;
              received := [] |} 2);
    [reflexivity | reflexivity | lia].
Defined.

End MoreSupervisorFacts.
